(** * goindex: an in-memory inverted index with a postfix boolean query language

    A shallow embedding of [index/index.go] (posting lists, the index core and
    ingestion) and [index/query.go] (the query-node frame, the three query
    operators and the postfix parser), followed by the properties of the
    specification that are stated about them.

    Conventions of the embedding.
    - Fixed-width integers are [Z] with the wrap-around written out
      ([wrap_int32], [to_uint32]); Go's [int] is [Z] (the values it takes here
      are bounded by a buffer size or a string length).
    - A Go array is a [list Z] of the array's length; an index outside it is a
      run-time panic.
    - Go strings are byte strings: [string] with one [ascii] per byte.
    - A function that can fail to return normally yields an [outcome].
    - The embedding follows one goroutine.  The mutex of a posting set keeps
      its state, since a goroutine can wait on a mutex it holds itself; the
      atomics are plain reads and writes. *)

From Stdlib Require Import ZArith String Ascii List Lia.
From stdpp Require Import base gmap strings list sorting.

Local Open Scope Z_scope.
Set Warnings "-register-all".

(** ** Outcomes of a call *)

Inductive panic_kind : Type :=
| NilDereference      (* invalid memory address or nil pointer dereference *)
| IndexOutOfRange     (* index out of range *)
| StackUnderflow      (* the explicit panic of opStack.Pop *)
| UnlockOfUnlocked.   (* sync: unlock of unlocked mutex *)

Inductive outcome (A : Type) : Type :=
| Ret (a : A)              (* the call returns *)
| Panic (why : panic_kind) (* the call panics *)
| Blocked                  (* the goroutine waits for a mutex it holds itself *)
| Timeout.                 (* the embedding's loop bound ran out *)

Arguments Ret {A} a.
Arguments Panic {A} why.
Arguments Blocked {A}.
Arguments Timeout {A}.

#[global] Instance outcome_ret : MRet outcome := λ A a, Ret a.
#[global] Instance outcome_bind : MBind outcome := λ A B f m,
  match m with
  | Ret a => f a
  | Panic why => Panic why
  | Blocked => Blocked
  | Timeout => Timeout
  end.

#[global] Instance outcome_fmap : FMap outcome := λ A B f m,
  match m with
  | Ret a => Ret (f a)
  | Panic why => Panic why
  | Blocked => Blocked
  | Timeout => Timeout
  end.

(** ** Machine integers *)

Definition wrap_int32 (z : Z) : Z := (z + 2 ^ 31) mod 2 ^ 32 - 2 ^ 31.
Definition to_uint32 (z : Z) : Z := z mod 2 ^ 32.

(** [atomic.AddInt32(addr, delta)]: the new value, which is also stored. *)
Definition atomic_AddInt32 (old delta : Z) : Z := wrap_int32 (old + delta).

(** ** Arrays *)

Definition array_get (a : list Z) (i : Z) : outcome Z :=
  match (if 0 <=? i then a !! Z.to_nat i else None) with
  | Some v => Ret v
  | None => Panic IndexOutOfRange
  end.

Definition array_set (a : list Z) (i : Z) (v : Z) : outcome (list Z) :=
  if (0 <=? i) && (i <? Z.of_nat (length a))
  then Ret (<[Z.to_nat i := v]> a)
  else Panic IndexOutOfRange.

(** ** index.go: posting lists *)

Definition ChunkSize : Z := 4096.

(** [PostChunk]: [Next] is a pointer, [None] when nil. *)
Inductive PostChunk : Type := mkPostChunk {
  IDs : list Z;             (* [ChunkSize]uint32 *)
  Length : Z;               (* int32 *)
  Next : option PostChunk
}.

(** The zero value [PostChunk{}]. *)
Definition zeroIDs : list Z := repeat 0 (Z.to_nat ChunkSize).
Definition emptyChunk : PostChunk := mkPostChunk zeroIDs 0 None.

Module PostSet.

(** [firstChunk] is the atomically replaced head pointer.  [SyncRoot] is the
    mutex: [true] while it is held.  Go's [sync.Mutex] is not reentrant. *)
Record t : Type := mk {
  firstChunk : PostChunk;
  SyncRoot : bool
}.

Definition NewPostSet : t := mk emptyChunk false.

Definition FirstChunk (set : t) : PostChunk := firstChunk set.

Definition AddPost (set : t) (id : Z) : outcome t :=
  let fc := FirstChunk set in
  if Length fc =? ChunkSize then
    let target := mkPostChunk (<[0%nat := id]> zeroIDs) 1 (Some fc) in
    Ret (mk target (SyncRoot set))
  else
    ids ← array_set (IDs fc) (Length fc) id;
    Ret (mk (mkPostChunk ids (atomic_AddInt32 (Length fc) 1) (Next fc))
            (SyncRoot set)).

Definition Lock (set : t) : outcome t :=
  if SyncRoot set then Blocked else Ret (mk (firstChunk set) true).

Definition Unlock (set : t) : outcome t :=
  if SyncRoot set then Ret (mk (firstChunk set) false)
  else Panic UnlockOfUnlocked.

End PostSet.

(** ** index.go: the index core *)

(** A [*PostSet] is named by the key under which [sets] holds it: the map is
    the only owner of posting sets, every key gets its own [NewPostSet()], and
    an entry is never replaced or removed.  Two pointers are equal exactly when
    their keys are.  [None] is the nil pointer. *)
Definition PostSetPtr : Type := option string.

Module PostIndex.

(** [setsLock] and [idMapLock] are taken and released inside one function
    without nesting, so a single goroutine never waits on them; they carry
    no state here.  [None] is the nil map. *)
Record t : Type := mk {
  nextLocalId : Z;                             (* int32 *)
  sets : option (gmap string PostSet.t);
  idMap : option (gmap Z Z)                    (* uint32 -> uint64 *)
}.

(** The zero value [&PostIndex{}]. *)
Definition empty : t := mk 0 None None.

Definition findSetChunkForQuery (index : t) (word : string)
  : option PostChunk :=
  match sets index with
  | None => None
  | Some m =>
      match m !! word with
      | Some set => Some (PostSet.FirstChunk set)
      | None => None
      end
  end.

(** First pass of [findOrCreateSets], under the read lock. *)
Fixpoint firstPass (m : gmap string PostSet.t) (sortedWords : list string)
  : list PostSetPtr * bool :=
  match sortedWords with
  | [] => ([], false)
  | w :: ws =>
      let '(rest, needWrite) := firstPass m ws in
      match m !! w with
      | Some _ => (Some w :: rest, needWrite)
      | None => (None :: rest, true)
      end
  end.

(** Second pass, under the write lock: entries still nil are looked up
    again and created when absent. *)
Fixpoint secondPass (m : gmap string PostSet.t) (found : list PostSetPtr)
    (sortedWords : list string) : gmap string PostSet.t * list PostSetPtr :=
  match found, sortedWords with
  | p :: found', w :: ws =>
      let '(m1, p1) :=
        match p with
        | Some _ => (m, p)
        | None =>
            match m !! w with
            | Some _ => (m, Some w)
            | None => (<[w := PostSet.NewPostSet]> m, Some w)
            end
        end in
      let '(m2, rest) := secondPass m1 found' ws in
      (m2, p1 :: rest)
  | _, _ => (m, [])
  end.

Definition findOrCreateSets (index : t) (sortedWords : list string)
  : t * list PostSetPtr :=
  let '(found, needWrite) :=
    match sets index with
    | None => (map (λ _, None) sortedWords, true)
    | Some m => firstPass m sortedWords
    end in
  if needWrite then
    let m := match sets index with None => ∅ | Some m => m end in
    let '(m', found') := secondPass m found sortedWords in
    (mk (nextLocalId index) (Some m') (idMap index), found')
  else (index, found).

Definition addIdMapping (index : t) (globalId localId : Z) : t :=
  let m := match idMap index with None => ∅ | Some m => m end in
  mk (nextLocalId index) (sets index) (Some (<[localId := globalId]> m)).

(** [sort.Strings]: increasing byte-wise order.  Equal strings cannot be
    told apart, so the sorted arrangement is unique. *)
Fixpoint insertSorted (w : string) (l : list string) : list string :=
  match l with
  | [] => [w]
  | x :: l' => if String.leb w x then w :: l else x :: insertSorted w l'
  end.

Definition sortStrings (words : list string) : list string :=
  foldr insertSorted [] words.

(** Apply a method of the pointed-to set in place. *)
Definition withSet (f : PostSet.t → outcome PostSet.t)
    (m : gmap string PostSet.t) (p : PostSetPtr)
  : outcome (gmap string PostSet.t) :=
  match p with
  | None => Panic NilDereference
  | Some w =>
      match m !! w with
      | None => Panic NilDereference
      | Some set => set' ← f set; Ret (<[w := set']> m)
      end
  end.

(** [for _, v := range sets { body v }] for a body that acts on [*v]. *)
Fixpoint forEachSet (f : PostSet.t → outcome PostSet.t)
    (m : gmap string PostSet.t) (ptrs : list PostSetPtr)
  : outcome (gmap string PostSet.t) :=
  match ptrs with
  | [] => Ret m
  | p :: rest => m' ← withSet f m p; forEachSet f m' rest
  end.

Definition setsOf (index : t) : gmap string PostSet.t :=
  match sets index with None => ∅ | Some m => m end.

(** [AddPost], also reporting the local id it drew (the Go function returns
    nothing).  The posting sets live in [sets]; the deferred unlocks run
    last, in reverse order. *)
Definition AddPostTraced (index : t) (id : Z) (words : list string)
  : outcome (Z * t) :=
  let sortedWords := sortStrings words in
  let '(index, ptrs) := findOrCreateSets index sortedWords in
  m ← forEachSet PostSet.Lock (setsOf index) ptrs;
  let counter := atomic_AddInt32 (nextLocalId index) 1 in
  let localId := to_uint32 counter in
  let index := addIdMapping (mk counter (Some m) (idMap index)) id localId in
  m ← forEachSet (λ v, PostSet.AddPost v localId) m ptrs;
  m ← forEachSet PostSet.Unlock m (rev ptrs);
  Ret (localId, mk (nextLocalId index) (Some m) (idMap index)).

Definition AddPost (index : t) (id : Z) (words : list string) : outcome t :=
  snd <$> AddPostTraced index id words.

End PostIndex.

(** A run of [AddPost] calls on one goroutine, each given as
    [(globalId, words)]; the local ids drawn are collected in call order. *)
Fixpoint run (index : PostIndex.t) (calls : list (Z * list string))
  : outcome (list Z * PostIndex.t) :=
  match calls with
  | [] => Ret ([], index)
  | (id, words) :: rest =>
      '(localId, index1) ← PostIndex.AddPostTraced index id words;
      '(localIds, index2) ← run index1 rest;
      Ret (localId :: localIds, index2)
  end.

(** The ids of a posting list, oldest first: the older chunks, then the valid
    prefix of this chunk. *)
Fixpoint postingList (c : PostChunk) : list Z :=
  match Next c with
  | None => []
  | Some older => postingList older
  end ++ take (Z.to_nat (Length c)) (IDs c).

(** ** query.go: query nodes and operators *)

Definition beforeStartedLength : Z := 0.
Definition doneLength : Z := -1.
Definition queryBufferSize : Z := 128.

Definition zeroBuffer : list Z := repeat 0 (Z.to_nat queryBufferSize).

(** [Current] points into a posting list.  No [AddPost] runs between parsing
    a query and pulling from it, so the chunk it points to is given by value. *)
Record TerminalOperator : Type := mkTerminal {
  Current : option PostChunk;   (* *PostChunk *)
  ChunkCursor : Z               (* int32 *)
}.

(** The [QueryOperator] interface has three implementations.  [AndOperator]
    and [OrOperator] hold their two [QueryNode] frames by value. *)
Inductive QueryOperator : Type :=
| Terminal (t : TerminalOperator)
| And (Left Right : QueryNode)
| Or (Left Right : QueryNode)
with QueryNode : Type :=
| mkQueryNode (buffer : list Z) (len : Z) (cursor : Z) (op : QueryOperator).

(** What [NextChunk] hands back: the operator after the call, the callee's
    [buffer] when it returns, and the returned count.  The parameter
    [buffer [queryBufferSize]uint32] is an array, which Go passes by value:
    the callee fills its own copy, and the second component is that copy. *)
Definition chunkResult : Type := QueryOperator * list Z * Z.

Module QueryNode.

Definition buffer (q : QueryNode) : list Z :=
  match q with mkQueryNode b _ _ _ => b end.
Definition length (q : QueryNode) : Z :=
  match q with mkQueryNode _ l _ _ => l end.
Definition cursor (q : QueryNode) : Z :=
  match q with mkQueryNode _ _ c _ => c end.
Definition op (q : QueryNode) : QueryOperator :=
  match q with mkQueryNode _ _ _ o => o end.

(** The composite literal [QueryNode{op: o}]. *)
Definition new (o : QueryOperator) : QueryNode := mkQueryNode zeroBuffer 0 0 o.

Definition Current (q : QueryNode) : outcome Z :=
  array_get (buffer q) (cursor q).

Definition Started (q : QueryNode) : bool := length q =? beforeStartedLength.

Definition Done (q : QueryNode) : bool := length q =? doneLength.

(** [MoveNext], given the dispatch of [q.op.NextChunk].  The call
    [q.op.NextChunk(q.buffer)] copies [q.buffer]; the frame keeps its own. *)
Definition MoveNext (NextChunk : QueryOperator → list Z → outcome chunkResult)
    (q : QueryNode) : outcome (QueryNode * bool) :=
  if negb (Done q) then
    let cursor1 := cursor q + 1 in
    if length q <=? cursor1 then
      '(op1, _, n) ← NextChunk (op q) (buffer q);
      let length1 := if n =? 0 then doneLength else n in
      let q1 := mkQueryNode (buffer q) length1 0 op1 in
      Ret (q1, negb (Done q1))
    else
      let q1 := mkQueryNode (buffer q) (length q) cursor1 (op q) in
      Ret (q1, negb (Done q1))
  else Ret (q, negb (Done q)).

End QueryNode.

Module TerminalOperator.

(** The loop of [NextChunk]; [bound] caps the iterations left. *)
Fixpoint loop (bound : nat) (op : TerminalOperator) (buffer : list Z) (i : Z)
  : outcome (TerminalOperator * list Z * Z) :=
  match Current op with
  | Some c =>
      if i <? queryBufferSize then
        match bound with
        | O => Timeout
        | S bound' =>
            '(c1, cursor1) ←
              (if ChunkCursor op <? 0 then
                 match Next c with
                 | None => Panic NilDereference
                 | Some older => Ret (older, wrap_int32 (Length older - 1))
                 end
               else Ret (c, ChunkCursor op));
            v ← array_get (IDs c1) cursor1;
            buffer1 ← array_set buffer i v;
            loop bound' (mkTerminal (Some c1) (wrap_int32 (cursor1 - 1)))
                 buffer1 (i + 1)
        end
      else Ret (op, buffer, i)
  | None => Ret (op, buffer, i)
  end.

Definition NextChunk (op : TerminalOperator) (buffer : list Z)
  : outcome (TerminalOperator * list Z * Z) :=
  loop (Z.to_nat queryBufferSize) op buffer 0.

End TerminalOperator.

Module AndOperator.
Section WithMoveNext.

Variable MoveNext : QueryNode → outcome (QueryNode * bool).

Definition NewAndOperator (left right : QueryOperator) : QueryOperator :=
  And (QueryNode.new left) (QueryNode.new right).

(** [for a.Current() > b.Current() { if !a.MoveNext() { return 0, false } }]:
    the advanced frame, and [false] when the function returned from
    inside the loop. *)
Fixpoint advance (fuel : nat) (a b : QueryNode) : outcome (QueryNode * bool) :=
  x ← QueryNode.Current a;
  y ← QueryNode.Current b;
  if y <? x then
    match fuel with
    | O => Timeout
    | S fuel' =>
        '(a1, more) ← MoveNext a;
        if (more : bool) then advance fuel' a1 b else Ret (a1, false)
    end
  else Ret (a, true).

(** The outer loop [for op.Left.Current() != op.Right.Current()] and the
    final [return op.Left.Current(), true]. *)
Fixpoint seek (fuel : nat) (l r : QueryNode)
  : outcome (QueryNode * QueryNode * (Z * bool)) :=
  x ← QueryNode.Current l;
  y ← QueryNode.Current r;
  if x =? y then Ret (l, r, (x, true))
  else
    match fuel with
    | O => Timeout
    | S fuel' =>
        '(l1, more) ← advance fuel' l r;
        if negb more then Ret (l1, r, (0, false))
        else
          '(r1, more) ← advance fuel' r l1;
          if negb more then Ret (l1, r1, (0, false))
          else seek fuel' l1 r1
    end.

Definition nextMatch (fuel : nat) (l r : QueryNode)
  : outcome (QueryNode * QueryNode * (Z * bool)) :=
  '(l1, more) ← MoveNext l;
  if negb more then Ret (l1, r, (0, false))
  else
    '(r1, more) ← MoveNext r;
    if negb more then Ret (l1, r1, (0, false))
    else seek fuel l1 r1.

Fixpoint loop (bound fuel : nat) (l r : QueryNode) (buffer : list Z) (i : Z)
  : outcome chunkResult :=
  if i <? queryBufferSize then
    match bound with
    | O => Timeout
    | S bound' =>
        '(l1, r1, (value, success)) ← nextMatch fuel l r;
        if (success : bool) then
          buffer1 ← array_set buffer i value;
          loop bound' fuel l1 r1 buffer1 (i + 1)
        else Ret (And l1 r1, buffer, i)
    end
  else Ret (And l r, buffer, i).

Definition NextChunk (fuel : nat) (l r : QueryNode) (buffer : list Z)
  : outcome chunkResult :=
  loop (Z.to_nat queryBufferSize) fuel l r buffer 0.

End WithMoveNext.
End AndOperator.

Module OrOperator.
Section WithMoveNext.

Variable MoveNext : QueryNode → outcome (QueryNode * bool).

Definition NewOrOperator (left right : QueryOperator) : QueryOperator :=
  Or (QueryNode.new left) (QueryNode.new right).

(** First loop: both children live. *)
Fixpoint merge (bound : nat) (l r : QueryNode) (buffer : list Z) (i : Z)
  : outcome (QueryNode * QueryNode * list Z * Z) :=
  if (i <? queryBufferSize) && negb (QueryNode.Done l)
     && negb (QueryNode.Done r) then
    match bound with
    | O => Timeout
    | S bound' =>
        x ← QueryNode.Current l;
        y ← QueryNode.Current r;
        if y <? x then
          buffer1 ← array_set buffer i x;
          '(l1, _) ← MoveNext l;
          merge bound' l1 r buffer1 (i + 1)
        else if x <? y then
          buffer1 ← array_set buffer i y;
          '(r1, _) ← MoveNext r;
          merge bound' l r1 buffer1 (i + 1)
        else
          buffer1 ← array_set buffer i x;
          '(l1, _) ← MoveNext l;
          '(r1, _) ← MoveNext r;
          merge bound' l1 r1 buffer1 (i + 1)
    end
  else Ret (l, r, buffer, i).

(** Second and third loop: drain one child. *)
Fixpoint drain (bound : nat) (a : QueryNode) (buffer : list Z) (i : Z)
  : outcome (QueryNode * list Z * Z) :=
  if (i <? queryBufferSize) && negb (QueryNode.Done a) then
    match bound with
    | O => Timeout
    | S bound' =>
        x ← QueryNode.Current a;
        buffer1 ← array_set buffer i x;
        '(a1, _) ← MoveNext a;
        drain bound' a1 buffer1 (i + 1)
    end
  else Ret (a, buffer, i).

Definition NextChunk (l r : QueryNode) (buffer : list Z)
  : outcome chunkResult :=
  '(l, r) ←
    (if negb (QueryNode.Started l) then
       '(l1, _) ← MoveNext l;
       '(r1, _) ← MoveNext r;
       Ret (l1, r1)
     else Ret (l, r));
  let bound := Z.to_nat queryBufferSize in
  '(l, r, buffer, i) ← merge bound l r buffer 0;
  '(l, buffer, i) ← drain bound l buffer i;
  '(r, buffer, i) ← drain bound r buffer i;
  Ret (Or l r, buffer, i).

End WithMoveNext.
End OrOperator.

(** Dynamic dispatch of [op.NextChunk(buffer)] through the interface.  The
    recursion is on [fuel]: one unit per level of the operator tree, the rest
    bounds the loops of [AndOperator.nextMatch]. *)
Fixpoint NextChunk (fuel : nat) (op : QueryOperator) (buffer : list Z)
  : outcome chunkResult :=
  match fuel with
  | O => Timeout
  | S fuel' =>
      match op with
      | Terminal t =>
          '(t1, buffer1, n) ← TerminalOperator.NextChunk t buffer;
          Ret (Terminal t1, buffer1, n)
      | And l r =>
          AndOperator.NextChunk (QueryNode.MoveNext (NextChunk fuel')) fuel'
            l r buffer
      | Or l r =>
          OrOperator.NextChunk (QueryNode.MoveNext (NextChunk fuel')) l r buffer
      end
  end.

Definition MoveNext (fuel : nat) (q : QueryNode) : outcome (QueryNode * bool) :=
  QueryNode.MoveNext (NextChunk fuel) q.

(** ** query.go: the parser *)

Record ParseError : Type := mkParseError {
  Position : Z;
  Message : string
}.

Definition opStack : Type := list QueryOperator.

Module OpStack.

Definition Length (s : opStack) : Z := Z.of_nat (length s).

Definition Push (s : opStack) (op : QueryOperator) : opStack := s ++ [op].

Definition Pop (s : opStack) : outcome (QueryOperator * opStack) :=
  match last s with
  | None => Panic StackUnderflow
  | Some result => Ret (result, take (length s - 1) s)
  end.

End OpStack.

(** The byte of the double quote. *)
Definition dquote : ascii := "034"%char.

Definition len (query : string) : Z := Z.of_nat (String.length query).

(** [query[i]]. *)
Definition byteAt (query : string) (i : Z) : outcome ascii :=
  match (if 0 <=? i then String.get (Z.to_nat i) query else None) with
  | Some c => Ret c
  | None => Panic IndexOutOfRange
  end.

(** [query[lo:hi]]. *)
Definition slice (query : string) (lo hi : Z) : outcome string :=
  if (0 <=? lo) && (lo <=? hi) && (hi <=? len query)
  then Ret (String.substring (Z.to_nat lo) (Z.to_nat (hi - lo)) query)
  else Panic IndexOutOfRange.

(** The scan for the closing quote, [for i < len(query) && query[i] != quote
    { i++ }]: the final [i]. *)
Fixpoint scanToQuote (bound : nat) (query : string) (i : Z) : outcome Z :=
  if i <? len query then
    c ← byteAt query i;
    if Ascii.eqb c dquote then Ret i
    else
      match bound with
      | O => Timeout
      | S bound' => scanToQuote bound' query (i + 1)
      end
  else Ret i.

(** What one token leaves behind: the literal's body, when the token is a
    literal, and the position and stack with which the loop goes on. *)
Record parsed : Type := mkParsed {
  body : option string;
  next : Z;
  operands : opStack
}.

(** One turn of the loop of [ParseQuery], with the [i++] that ends it: a
    parse error, or the state for the next turn. *)
Definition parseToken (index : PostIndex.t) (query : string) (i : Z)
    (stack : opStack) : outcome (ParseError + parsed) :=
  c ← byteAt query i;
  if Ascii.eqb c "&" then
    if OpStack.Length stack <? 2 then
      Ret (inl (mkParseError i "Need two operands for &"))
    else
      '(a, stack1) ← OpStack.Pop stack;
      '(b, stack2) ← OpStack.Pop stack1;
      Ret (inr (mkParsed None (i + 1)
                  (OpStack.Push stack2 (AndOperator.NewAndOperator a b))))
  else if Ascii.eqb c "|" then
    if OpStack.Length stack <? 2 then
      Ret (inl (mkParseError i "Need two operands for |"))
    else
      '(a, stack1) ← OpStack.Pop stack;
      '(b, stack2) ← OpStack.Pop stack1;
      Ret (inr (mkParsed None (i + 1)
                  (OpStack.Push stack2 (OrOperator.NewOrOperator a b))))
  else if Ascii.eqb c dquote then
    let start := i + 1 in
    j ← scanToQuote (String.length query) query (start + 1);
    if len query <=? j then
      Ret (inl (mkParseError (start - 1) "Unterminated string constant"))
    else
      word ← slice query start j;
      let chunk := PostIndex.findSetChunkForQuery index word in
      Ret (inr (mkParsed (Some word) (j + 1)
                  (OpStack.Push stack (Terminal (mkTerminal chunk 0)))))
  else Ret (inl (mkParseError i "Unexpected character")).

Fixpoint parseLoop (bound : nat) (index : PostIndex.t) (query : string)
    (i : Z) (stack : opStack) : outcome (ParseError + QueryNode) :=
  if i <? len query then
    match bound with
    | O => Timeout
    | S bound' =>
        r ← parseToken index query i stack;
        match r with
        | inl e => Ret (inl e)
        | inr p => parseLoop bound' index query (next p) (operands p)
        end
    end
  else if negb (OpStack.Length stack =? 1) then
    Ret (inl (mkParseError (len query) "Unterminated query"))
  else
    '(op, _) ← OpStack.Pop stack;
    Ret (inr (QueryNode.new op)).

Definition ParseQuery (index : PostIndex.t) (query : string)
  : outcome (ParseError + QueryNode) :=
  parseLoop (String.length query) index query 0 [].

(** The loop of [ParseQuery] arrives at position [i] with [stack]: from the
    start, by turns of the loop that do not return an error. *)
Inductive arrives (index : PostIndex.t) (query : string) : Z → opStack → Prop :=
| arrives_start : arrives index query 0 []
| arrives_turn i stack p :
    arrives index query i stack →
    i < len query →
    parseToken index query i stack = Ret (inr p) →
    arrives index query (next p) (operands p).

(** ** The top-N driver *)

(** Modelled from the spec: [QueryPosts], which the tests call and whose code
    is not among the sources.  Section 4.D, Top-N driver: parse the
    expression and return a parse error as it is; pull from the root frame
    until [limit] local ids are collected or the root signals the end of the
    stream; translate each local id through [idMap], skipping an id without a
    mapping; return the global ids in the order collected. *)
Fixpoint collect (fuel : nat) (limit : nat) (root : QueryNode) : outcome (list Z) :=
  match limit with
  | O => Ret []
  | S limit' =>
      '(root1, more) ← MoveNext fuel root;
      if (more : bool) then
        localId ← QueryNode.Current root1;
        rest ← collect fuel limit' root1;
        Ret (localId :: rest)
      else Ret []
  end.

(** Modelled from the spec: the [translate] helper of section 4.B.2. *)
Definition translate (index : PostIndex.t) (localId : Z) : option Z :=
  match PostIndex.idMap index with
  | None => None
  | Some m => m !! localId
  end.

(** Modelled from the spec: [QueryPosts(expression, limit)] as described at
    [collect]. *)
Definition QueryPosts (fuel : nat) (index : PostIndex.t) (expression : string)
    (limit : nat) : outcome (ParseError + list Z) :=
  r ← ParseQuery index expression;
  match r with
  | inl e => Ret (inl e)
  | inr root =>
      localIds ← collect fuel limit root;
      Ret (inr (omap (M := list) (translate index) localIds))
  end.

(** The literal for term [t] in the query language: [t] between quotes. *)
Definition quoted (t : string) : string :=
  String dquote (t ++ String dquote EmptyString).

(** ** Notions used in the properties *)

(** The ids of a posting list read from the head chunk backwards, newest
    first. *)
Fixpoint newestFirst (c : PostChunk) : list Z :=
  rev (take (Z.to_nat (Length c)) (IDs c)) ++
  match Next c with
  | None => []
  | Some older => newestFirst older
  end.

(** A chunk as [PostSet.AddPost] keeps it: the count within the array. *)
Definition wfChunk (c : PostChunk) : Prop :=
  0 ≤ Length c ≤ ChunkSize ∧ Z.of_nat (length (IDs c)) = ChunkSize.

(** A posting list in good order below the bound [k]: a well-formed head,
    strictly ascending ids, none above [k]. *)
Definition chunkOk (k : Z) (c : PostChunk) : Prop :=
  wfChunk c ∧ StronglySorted Z.lt (postingList c) ∧
  Forall (λ x, x ≤ k) (postingList c).

Definition setsOk (k : Z) (m : gmap string PostSet.t) : Prop :=
  ∀ w set, m !! w = Some set → chunkOk k (PostSet.firstChunk set).

(** The number of calls after which the 32-bit counter is back at 0. *)
Definition wrapCalls : nat := Z.to_nat (2 ^ 32).

(** What a frame shows of the first chunk of the query for [a]: the count
    that [NextChunk] returns and the first three ids in the buffer it
    filled; then, after [MoveNext] on the frame, its answer, the frame's
    length and cursor, and what [Current] reads. *)
Definition firstChunkSeen (index : PostIndex.t)
  : outcome (option (Z * list Z * bool * Z * Z * Z)) :=
  parsed ← ParseQuery index (quoted "a");
  match parsed with
  | inl _ => Ret None
  | inr root =>
      '(_, filled, n) ← NextChunk 1 (QueryNode.op root) (QueryNode.buffer root);
      '(root1, more) ← MoveNext 1 root;
      v ← QueryNode.Current root1;
      Ret (Some (n, take 3 filled, more,
                 QueryNode.length root1, QueryNode.cursor root1, v))
  end.

(** Between calls no mutex is held and every head chunk is well formed. *)
Definition atRest (m : gmap string PostSet.t) : Prop :=
  ∀ w set, m !! w = Some set →
    PostSet.SyncRoot set = false ∧ wfChunk (PostSet.firstChunk set).

(** * Properties *)

(** ** Proof tools *)

(** Split a hypothesis [m ≫= f = Ret x] on the outcome of [m]. *)
Lemma bind_Ret {A B : Type} (m : outcome A) (f : A → outcome B) (b : B) :
  m ≫= f = Ret b → ∃ a, m = Ret a ∧ f a = Ret b.
Proof. destruct m; simpl; intros H; try discriminate. eauto. Qed.

Ltac bind_inv H :=
  let a := fresh "a" in
  let Ha := fresh "Ha" in
  apply bind_Ret in H; destruct H as (a & Ha & H).

(** ** Machine integers *)

Lemma to_uint32_wrap_int32 (z : Z) : to_uint32 (wrap_int32 z) = z mod 2 ^ 32.
Proof.
  unfold to_uint32, wrap_int32.
  rewrite <- Zminus_mod_idemp_l, Zmod_mod, Zminus_mod_idemp_l.
  replace (z + 2 ^ 31 - 2 ^ 31) with z by lia. reflexivity.
Qed.

Lemma wrap_int32_add_l (a b : Z) : wrap_int32 (wrap_int32 a + b) = wrap_int32 (a + b).
Proof.
  unfold wrap_int32. f_equal.
  replace ((a + 2 ^ 31) mod 2 ^ 32 - 2 ^ 31 + b + 2 ^ 31)
    with ((a + 2 ^ 31) mod 2 ^ 32 + b) by lia.
  rewrite Zplus_mod_idemp_l. f_equal. lia.
Qed.

Lemma wrap_int32_small (z : Z) : - 2 ^ 31 ≤ z < 2 ^ 31 → wrap_int32 z = z.
Proof. intros H. unfold wrap_int32. rewrite Z.mod_small; lia. Qed.

(** ** The parser *)

Lemma byteAt_Ret (query : string) (i : Z) (c : ascii) :
  byteAt query i = Ret c → 0 ≤ i < len query.
Proof.
  unfold byteAt, len. destruct (0 <=? i) eqn:Hi; [|discriminate].
  destruct (String.get (Z.to_nat i) query) as [c'|] eqn:Hg; [|discriminate].
  intros _. apply Z.leb_le in Hi. split; [done|].
  assert (Z.to_nat i < String.length query)%nat; [|lia].
  clear Hi. revert Hg. generalize (Z.to_nat i). clear i.
  induction query as [|a q IH]; intros [|n]; simpl; try discriminate; try lia.
  intros Hg. apply IH in Hg. lia.
Qed.

Lemma byteAt_in_range (query : string) (i : Z) :
  0 ≤ i < len query → ∃ c, byteAt query i = Ret c.
Proof.
  unfold byteAt, len. intros [Hi Hlt].
  assert (Z.to_nat i < String.length query)%nat as Hn by lia.
  apply Z.leb_le in Hi as ->. clear Hlt. revert Hn. generalize (Z.to_nat i). clear i.
  induction query as [|a q IH]; intros [|n]; simpl; try lia; eauto.
  intros Hn. apply IH. lia.
Qed.

Lemma scanToQuote_ge (bound : nat) (query : string) (i j : Z) :
  scanToQuote bound query i = Ret j → i ≤ j.
Proof.
  revert i. induction bound as [|bound IH]; intros i; simpl;
    (destruct (i <? len query); [|intros [= <-]; lia]);
    (destruct (byteAt query i) as [c| | |]; simpl; try discriminate);
    (destruct (Ascii.eqb c dquote); [intros [= <-]; lia|]); try discriminate.
  intros H. apply IH in H. lia.
Qed.

(** Where no closing quote follows, the scan runs to the end of the query. *)
Lemma scanToQuote_no_quote (bound : nat) (query : string) (i : Z) :
  (∀ j, i ≤ j < len query → byteAt query j ≠ Ret dquote) →
  0 ≤ i → len query - i ≤ Z.of_nat bound →
  scanToQuote bound query i = Ret (Z.max i (len query)).
Proof.
  revert i. induction bound as [|bound IH]; intros i Hno Hi Hb; simpl;
    (destruct (i <? len query) eqn:Hlt;
      [apply Z.ltb_lt in Hlt|apply Z.ltb_ge in Hlt; f_equal; lia]).
  - lia.
  - destruct (byteAt_in_range query i) as [c Hc]; [lia|]. rewrite Hc. simpl.
    destruct (Ascii.eqb_spec c dquote) as [->|_].
    + exfalso. apply (Hno i); [lia|done].
    + rewrite IH; [f_equal; lia| |lia|lia].
      intros j Hj. apply Hno. lia.
Qed.

Lemma substring_length (s : string) (n m : nat) :
  (n + m ≤ String.length s)%nat → String.length (String.substring n m s) = m.
Proof.
  revert n m. induction s as [|a s IH]; intros [|n] [|m]; simpl; try lia.
  - intros H. rewrite IH; lia.
  - intros H. apply IH. lia.
  - intros H. apply IH. lia.
Qed.

(** A turn of the loop that does not fail moves on by at least one byte. *)
Lemma parseToken_next (index : PostIndex.t) (query : string) (i : Z)
    (stack : opStack) (p : parsed) :
  parseToken index query i stack = Ret (inr p) → i + 1 ≤ next p.
Proof.
  unfold parseToken. intros H. bind_inv H.
  destruct (Ascii.eqb a "&").
  { destruct (OpStack.Length stack <? 2); [discriminate|].
    bind_inv H. destruct a0. bind_inv H. destruct a0.
    injection H as <-. simpl. lia. }
  destruct (Ascii.eqb a "|").
  { destruct (OpStack.Length stack <? 2); [discriminate|].
    bind_inv H. destruct a0. bind_inv H. destruct a0.
    injection H as <-. simpl. lia. }
  destruct (Ascii.eqb a dquote); [|discriminate].
  bind_inv H. apply scanToQuote_ge in Ha0.
  destruct (len query <=? a0); [discriminate|].
  bind_inv H. injection H as <-. simpl. lia.
Qed.

(** A literal that the parser accepts has a body of at least one byte. *)
Lemma parseToken_body (index : PostIndex.t) (query : string) (i : Z)
    (stack : opStack) (p : parsed) (word : string) :
  parseToken index query i stack = Ret (inr p) → body p = Some word →
  (1 ≤ String.length word)%nat.
Proof.
  unfold parseToken. intros H Hbody. bind_inv H.
  apply byteAt_Ret in Ha.
  destruct (Ascii.eqb a "&").
  { destruct (OpStack.Length stack <? 2); [discriminate|].
    bind_inv H. destruct a0. bind_inv H. destruct a0.
    injection H as <-. discriminate. }
  destruct (Ascii.eqb a "|").
  { destruct (OpStack.Length stack <? 2); [discriminate|].
    bind_inv H. destruct a0. bind_inv H. destruct a0.
    injection H as <-. discriminate. }
  destruct (Ascii.eqb a dquote); [|discriminate].
  bind_inv H. apply scanToQuote_ge in Ha0.
  destruct (len query <=? a0) eqn:Hend; [discriminate|].
  apply Z.leb_gt in Hend.
  bind_inv H. injection H as <-. simpl in Hbody. injection Hbody as ->.
  unfold slice in Ha1.
  destruct ((0 <=? i + 1) && (i + 1 <=? a0) && (a0 <=? len query));
    [|discriminate].
  injection Ha1 as <-. unfold len in *.
  rewrite substring_length; lia.
Qed.

(** Once the loop has arrived somewhere, parsing is the loop from there. *)
Lemma arrives_parseLoop (index : PostIndex.t) (query : string) (i : Z)
    (stack : opStack) :
  arrives index query i stack →
  0 ≤ i ∧ ∃ bound, len query - i ≤ Z.of_nat bound ∧
    ParseQuery index query = parseLoop bound index query i stack.
Proof.
  induction 1 as [|i stack p _ (Hi & bound & Hb & IH) Hlt Htok].
  - split; [lia|]. exists (String.length query). unfold len. split; [lia|done].
  - pose proof (parseToken_next _ _ _ _ _ Htok) as Hnext.
    split; [lia|]. destruct bound as [|bound]; [lia|].
    exists bound. split; [lia|]. rewrite IH. simpl.
    apply Z.ltb_lt in Hlt as ->. rewrite Htok. reflexivity.
Qed.

(** *** Parsing always comes to a result *)

Lemma scanToQuote_returns (bound : nat) (query : string) (i : Z) :
  0 ≤ i → len query - i ≤ Z.of_nat bound →
  ∃ j, scanToQuote bound query i = Ret j.
Proof.
  revert i. induction bound as [|bound IH]; intros i Hi Hb; simpl;
    (destruct (Z.ltb_spec i (len query)); [|by eauto]); [lia|].
  destruct (byteAt_in_range query i) as [c ->]; [lia|]. simpl.
  destruct (Ascii.eqb c dquote); [by eauto|]. apply IH; lia.
Qed.

Lemma Pop_returns (s : opStack) :
  1 ≤ OpStack.Length s →
  ∃ op s', OpStack.Pop s = Ret (op, s') ∧ OpStack.Length s' = OpStack.Length s - 1.
Proof.
  unfold OpStack.Length, OpStack.Pop. intros Hs.
  destruct (last s) as [op|] eqn:Hlast.
  - do 2 eexists. split; [reflexivity|]. rewrite length_take. lia.
  - apply last_None in Hlast as ->. simpl in Hs. lia.
Qed.

Lemma parseToken_returns (index : PostIndex.t) (query : string) (i : Z)
    (stack : opStack) :
  0 ≤ i < len query → ∃ r, parseToken index query i stack = Ret r.
Proof.
  intros Hi. unfold parseToken.
  destruct (byteAt_in_range query i Hi) as [c ->]. simpl.
  assert (∀ (mk : QueryOperator → QueryOperator → QueryOperator) (msg : string),
    ∃ r, (if OpStack.Length stack <? 2
          then Ret (inl (mkParseError i msg))
          else '(a, stack1) ← OpStack.Pop stack;
               '(b, stack2) ← OpStack.Pop stack1;
               Ret (inr (mkParsed None (i + 1) (OpStack.Push stack2 (mk a b)))))
         = Ret r) as Hop.
  { intros mk msg. destruct (Z.ltb_spec (OpStack.Length stack) 2); [by eauto|].
    destruct (Pop_returns stack) as (a & stack1 & -> & Hlen1); [lia|]. simpl.
    destruct (Pop_returns stack1) as (b & stack2 & -> & Hlen2); [lia|]. simpl.
    eauto. }
  destruct (Ascii.eqb c "&"); [apply Hop|].
  destruct (Ascii.eqb c "|"); [apply Hop|].
  destruct (Ascii.eqb c dquote); [|by eauto].
  destruct (scanToQuote_returns (String.length query) query (i + 1 + 1))
    as [j Hj]; [lia|unfold len; lia|].
  rewrite Hj. simpl. apply scanToQuote_ge in Hj.
  destruct (Z.leb_spec (len query) j); [by eauto|].
  unfold slice.
  destruct (Z.leb_spec 0 (i + 1)); [|lia].
  destruct (Z.leb_spec (i + 1) j); [|lia].
  destruct (Z.leb_spec j (len query)); [|lia]. simpl. eauto.
Qed.

Lemma parseLoop_returns (index : PostIndex.t) (query : string) (bound : nat) :
  ∀ (i : Z) (stack : opStack),
  0 ≤ i → len query - i ≤ Z.of_nat bound →
  ∃ r, parseLoop bound index query i stack = Ret r.
Proof.
  assert (∀ stack,
    ∃ r, (if negb (OpStack.Length stack =? 1)
          then Ret (inl (mkParseError (len query) "Unterminated query"))
          else '(op, _) ← OpStack.Pop stack; Ret (inr (QueryNode.new op)))
         = Ret r) as Hend.
  { intros stack. destruct (Z.eqb_spec (OpStack.Length stack) 1); simpl;
      [|by eauto].
    destruct (Pop_returns stack) as (op & s' & -> & _); [lia|]. simpl. eauto. }
  induction bound as [|bound IH]; intros i stack Hi Hb; simpl;
    (destruct (Z.ltb_spec i (len query)); [|by apply Hend]); [lia|].
  destruct (parseToken_returns index query i stack) as [[e|p] Htok]; [lia| |];
    rewrite Htok; simpl; [by eauto|].
  apply parseToken_next in Htok. apply IH; lia.
Qed.

(** [ParseQuery] returns, with a query node or with a parse error, for every
    index and query: it does not panic, and the bound on its loop is never
    reached. *)
Lemma ParseQuery_returns (index : PostIndex.t) (query : string) :
  ∃ r, ParseQuery index query = Ret r.
Proof. apply parseLoop_returns; unfold len; lia. Qed.

(** *** Parse errors *)

(** C6, as amended.  The five-byte query made of the literal for [a], a
    space and an ampersand is rejected at byte offset 3, the space, with
    the message "Unexpected character": the parser has no token for white
    space and never reaches the ampersand.  Without the space, the four-byte
    query is rejected at offset 3, the ampersand, with "Need two operands
    for &". *)
Theorem C6_space_is_rejected_first (index : PostIndex.t) :
  ParseQuery index (quoted "a" ++ " &")%string
    = Ret (inl (mkParseError 3 "Unexpected character")) ∧
  ParseQuery index (quoted "a" ++ "&")%string
    = Ret (inl (mkParseError 3 "Need two operands for &")).
Proof. split; reflexivity. Qed.

(** C6 as stated fails: the query with the space does not yield the error
    "Need two operands for &" at offset 4. *)
Lemma C6_counterexample :
  ParseQuery PostIndex.empty (quoted "a" ++ " &")%string
    ≠ Ret (inl (mkParseError 4 "Need two operands for &")).
Proof. vm_compute. discriminate. Qed.

(** C7.  Whenever the parser comes to an opening quote (the loop arrives at
    a position [p] that holds a quote) and no quote closes the literal (none
    occurs from [p + 2] on, the byte at [p + 1] being body text in any
    case), parsing returns the error "Unterminated string constant" at [p],
    the byte offset of that opening quote. *)
Theorem C7_unterminated_literal (index : PostIndex.t) (query : string)
    (p : Z) (stack : opStack) :
  arrives index query p stack →
  byteAt query p = Ret dquote →
  (∀ j, p + 2 ≤ j < len query → byteAt query j ≠ Ret dquote) →
  ParseQuery index query
    = Ret (inl (mkParseError p "Unterminated string constant")).
Proof.
  intros Harr Hq Hno.
  destruct (arrives_parseLoop _ _ _ _ Harr) as (Hp & bound & Hb & ->).
  pose proof (byteAt_Ret _ _ _ Hq) as Hlt.
  destruct bound as [|bound]; [lia|]. simpl.
  destruct (Z.ltb_spec p (len query)); [|lia].
  unfold parseToken. rewrite Hq. simpl.
  rewrite scanToQuote_no_quote; [|intros j Hj; apply Hno; lia|lia|unfold len; lia].
  simpl. destruct (Z.leb_spec (len query) (Z.max (p + 1 + 1) (len query))); [|lia].
  simpl. do 3 f_equal. lia.
Qed.

(** C7 at the query of the specification, an opening quote followed by
    [unterminated], where the error is at offset 0; and behind a well-formed
    literal, where the quote at offset 3 opens a literal that is never
    closed. *)
Lemma C7_witness :
  ParseQuery PostIndex.empty (String dquote "unterminated")
    = Ret (inl (mkParseError 0 "Unterminated string constant")) ∧
  ParseQuery PostIndex.empty (quoted "a" ++ String dquote "bc")%string
    = Ret (inl (mkParseError 3 "Unterminated string constant")).
Proof.
  split.
  - apply (C7_unterminated_literal PostIndex.empty _ 0 []).
    + apply arrives_start.
    + reflexivity.
    + intros j Hj. change (len (String dquote "unterminated")) with 13 in Hj.
      assert (j = 2 ∨ j = 3 ∨ j = 4 ∨ j = 5 ∨ j = 6 ∨ j = 7 ∨ j = 8 ∨ j = 9
              ∨ j = 10 ∨ j = 11 ∨ j = 12) as Hcases by lia.
      repeat (destruct Hcases as [-> | Hcases]; [discriminate|]).
      subst j. discriminate.
  - set (lit := mkParsed (Some "a") 3 [Terminal (mkTerminal None 0)]).
    apply (C7_unterminated_literal PostIndex.empty _ 3 (operands lit)).
    + apply (arrives_turn _ _ 0 [] lit); [apply arrives_start|done|reflexivity].
    + reflexivity.
    + intros j Hj.
      change (len (quoted "a" ++ String dquote "bc")%string) with 6 in Hj.
      assert (j = 5) as -> by lia. discriminate.
Defined.

(** C10.  The two-byte query made of two quotes is rejected with
    "Unterminated string constant" at offset 0, and no literal that the
    parser accepts has an empty body: the byte after the opening quote is
    taken as body text without being looked at. *)
Theorem C10_literal_body_not_empty (index : PostIndex.t) :
  ParseQuery index (String dquote (String dquote EmptyString))
    = Ret (inl (mkParseError 0 "Unterminated string constant")) ∧
  ∀ query i stack p word,
    parseToken index query i stack = Ret (inr p) →
    body p = Some word →
    (1 ≤ String.length word)%nat.
Proof. split; [reflexivity|]. intros. eapply parseToken_body; eauto. Qed.

(** C10 at the literal for [ab]; and a body that starts with a quote. *)
Lemma C10_witness :
  ∃ p, parseToken PostIndex.empty (quoted "ab") 0 [] = Ret (inr p) ∧
       body p = Some "ab" ∧ (1 ≤ String.length "ab")%nat.
Proof.
  eexists. split; [reflexivity|]. split; [reflexivity|].
  eapply (proj2 (C10_literal_body_not_empty PostIndex.empty)
            (quoted "ab") 0 []); reflexivity.
Defined.

Example quote_as_body (index : PostIndex.t) :
  ∃ p, parseToken index (String dquote (String dquote (String dquote EmptyString))) 0 []
         = Ret (inr p) ∧
       body p = Some (String dquote EmptyString) ∧ next p = 3.
Proof. eexists. split; [reflexivity|]. split; reflexivity. Qed.

(** ** Posting lists *)

Arguments zeroIDs : simpl never.
Arguments zeroBuffer : simpl never.

Lemma zeroIDs_length : Z.of_nat (length zeroIDs) = ChunkSize.
Proof. unfold zeroIDs. rewrite repeat_length. reflexivity. Qed.

Lemma zeroIDs_head (id : Z) : take 1 (<[0%nat := id]> zeroIDs) = [id].
Proof. reflexivity. Qed.

Lemma wfChunk_empty : wfChunk emptyChunk.
Proof. split; [done|apply zeroIDs_length]. Qed.

(** [PostSet.AddPost] on a well-formed head returns and puts [id] at the
    end of the posting list. *)
Lemma PostSet_AddPost_spec (set : PostSet.t) (id : Z) :
  wfChunk (PostSet.firstChunk set) →
  ∃ set', PostSet.AddPost set id = Ret set' ∧
    wfChunk (PostSet.firstChunk set') ∧
    postingList (PostSet.firstChunk set')
      = postingList (PostSet.firstChunk set) ++ [id] ∧
    PostSet.SyncRoot set' = PostSet.SyncRoot set.
Proof.
  destruct set as [[ids n older] locked]. unfold wfChunk. simpl.
  intros [Hn Hlen]. unfold PostSet.AddPost, PostSet.FirstChunk. simpl.
  destruct (Z.eqb_spec n ChunkSize) as [->|Hne].
  - eexists. split; [reflexivity|]. simpl.
    repeat split; done.
  - unfold array_set.
    destruct (Z.leb_spec 0 n); [|lia].
    destruct (Z.ltb_spec n (Z.of_nat (length ids))); [|lia].
    simpl. eexists. split; [reflexivity|]. simpl.
    unfold atomic_AddInt32. rewrite wrap_int32_small by (unfold ChunkSize in *; lia).
    rewrite length_insert. repeat split; try lia.
    replace (Z.to_nat (n + 1)) with (S (Z.to_nat n)) by lia.
    rewrite (take_S_r _ _ id) by (apply list_lookup_insert_eq; lia).
    rewrite take_insert_ge by lia. rewrite app_assoc. reflexivity.
Qed.

(** ** The set table *)

Lemma firstPass_spec (m : gmap string PostSet.t) (ws : list string)
    (found : list PostSetPtr) (needWrite : bool) :
  PostIndex.firstPass m ws = (found, needWrite) →
  Forall2 (λ p w, p = None ∨ p = Some w ∧ is_Some (m !! w)) found ws ∧
  (needWrite = false → found = map Some ws).
Proof.
  revert found needWrite. induction ws as [|w ws IH]; simpl; intros found nw.
  - intros [= <- <-]. split; [constructor|done].
  - destruct (PostIndex.firstPass m ws) as [rest nw'].
    destruct (IH rest nw' eq_refl) as [Hall Hrest].
    destruct (m !! w) as [set|] eqn:Hw; intros [= <- <-].
    + split; [constructor; eauto|]. intros ->. simpl. by rewrite Hrest.
    + split; [constructor; eauto|]. discriminate.
Qed.

Lemma secondPass_spec (ws : list string) :
  ∀ (found : list PostSetPtr) (m m' : gmap string PostSet.t)
    (found' : list PostSetPtr),
  Forall2 (λ p w, p = None ∨ p = Some w ∧ is_Some (m !! w)) found ws →
  PostIndex.secondPass m found ws = (m', found') →
  found' = map Some ws ∧
  (∀ w, w ∈ ws → is_Some (m' !! w)) ∧
  (∀ w set, m !! w = Some set → m' !! w = Some set) ∧
  (∀ w set, m' !! w = Some set → m !! w = Some set ∨ set = PostSet.NewPostSet).
Proof.
  induction ws as [|w ws IH]; intros found m m' found' Hall;
    inversion Hall as [|p ? found0 ? Hp Hall0]; subst; simpl.
  - intros [= <- <-]. repeat split; eauto. intros w Hw. inversion Hw.
  - assert (∀ m1 rest,
        is_Some (m1 !! w) →
        (∀ v set, m !! v = Some set → m1 !! v = Some set) →
        (∀ v set, m1 !! v = Some set →
           m !! v = Some set ∨ set = PostSet.NewPostSet) →
        PostIndex.secondPass m1 found0 ws = (m', rest) →
        Some w :: rest = Some w :: map Some ws ∧
        (∀ v, v ∈ w :: ws → is_Some (m' !! v)) ∧
        (∀ v set, m !! v = Some set → m' !! v = Some set) ∧
        (∀ v set, m' !! v = Some set →
           m !! v = Some set ∨ set = PostSet.NewPostSet)) as Hfin.
    { intros m1 rest Hw1 Hmono Hnew Hrest.
      assert (Forall2 (λ p w, p = None ∨ p = Some w ∧ is_Some (m1 !! w))
                found0 ws) as Hall1.
      { eapply Forall2_impl; [exact Hall0|]. simpl.
        intros q v [->|[-> [set Hset]]]; eauto. }
      destruct (IH _ _ _ _ Hall1 Hrest) as (-> & Hin & Hmono2 & Hnew2).
      repeat split.
      - intros v Hv. apply elem_of_cons in Hv as [->|Hv]; [|by eauto].
        destruct Hw1 as [set Hset]. eauto.
      - eauto.
      - intros v set Hv. apply Hnew2 in Hv as [Hv|Hv]; eauto. }
    destruct Hp as [->|[-> Hw]]; [destruct (m !! w) as [set0|] eqn:Hw|].
    + destruct (PostIndex.secondPass m found0 ws) as [m2 rest] eqn:Hrest.
      intros [= <- <-]. apply (Hfin m); eauto.
    + destruct (PostIndex.secondPass (<[w:=PostSet.NewPostSet]> m) found0 ws)
        as [m2 rest] eqn:Hrest.
      intros [= <- <-]. apply (Hfin (<[w:=PostSet.NewPostSet]> m)); eauto.
      * by rewrite lookup_insert_eq.
      * intros v set Hv. rewrite lookup_insert_ne; [done|congruence].
      * intros v set. rewrite lookup_insert.
        case_decide; [intros [= <-]; by right|by left].
    + destruct (PostIndex.secondPass m found0 ws) as [m2 rest] eqn:Hrest.
      intros [= <- <-]. apply (Hfin m); eauto.
Qed.

Lemma findOrCreateSets_spec (index index1 : PostIndex.t) (ws : list string)
    (ptrs : list PostSetPtr) :
  PostIndex.findOrCreateSets index ws = (index1, ptrs) →
  ptrs = map Some ws ∧
  PostIndex.nextLocalId index1 = PostIndex.nextLocalId index ∧
  PostIndex.idMap index1 = PostIndex.idMap index ∧
  (∀ w, w ∈ ws → is_Some (PostIndex.setsOf index1 !! w)) ∧
  (∀ w set, PostIndex.setsOf index !! w = Some set →
     PostIndex.setsOf index1 !! w = Some set) ∧
  (∀ w set, PostIndex.setsOf index1 !! w = Some set →
     PostIndex.setsOf index !! w = Some set ∨ set = PostSet.NewPostSet).
Proof.
  destruct index as [n sets ids]. unfold PostIndex.findOrCreateSets. simpl.
  destruct sets as [m|].
  - destruct (PostIndex.firstPass m ws) as [found needWrite] eqn:Hfirst.
    apply firstPass_spec in Hfirst as [Hall Hfound].
    destruct needWrite.
    + destruct (PostIndex.secondPass m found ws) as [m' found'] eqn:Hsecond.
      apply secondPass_spec in Hsecond as (-> & Hin & Hmono & Hnew); [|done].
      intros [= <- <-]. by repeat split.
    + intros [= <- <-]. rewrite Hfound by done. repeat split; eauto.
      intros w Hw. unfold PostIndex.setsOf. simpl.
      rewrite Hfound in Hall by done.
      apply list_elem_of_lookup in Hw as [i Hi].
      eapply Forall2_lookup_r in Hall as (p & Hp & Hcase); [|exact Hi].
      rewrite list_lookup_fmap, Hi in Hp. injection Hp as <-.
      destruct Hcase as [|[_ ?]]; done.
  - destruct (PostIndex.secondPass ∅ (map (λ _, None) ws) ws)
      as [m' found'] eqn:Hsecond.
    apply secondPass_spec in Hsecond as (-> & Hin & Hmono & Hnew).
    + intros [= <- <-]. by repeat split.
    + clear. induction ws; simpl; constructor; eauto.
Qed.

(** ** Loops over the resolved sets *)

Lemma withSet_Ret (f : PostSet.t → outcome PostSet.t)
    (m m1 : gmap string PostSet.t) (w : string) :
  PostIndex.withSet f m (Some w) = Ret m1 →
  ∃ set set1, m !! w = Some set ∧ f set = Ret set1 ∧ m1 = <[w := set1]> m.
Proof.
  unfold PostIndex.withSet. destruct (m !! w) as [set|]; [|discriminate].
  intros H. bind_inv H. injection H as <-. eauto.
Qed.

(** A loop over pairwise different sets applies its body once to each of
    them and leaves the other sets alone. *)
Lemma forEachSet_NoDup (f : PostSet.t → outcome PostSet.t) (ws : list string) :
  ∀ m m' : gmap string PostSet.t,
  NoDup ws →
  PostIndex.forEachSet f m (map Some ws) = Ret m' →
  ∀ w, (w ∈ ws → ∃ set set', m !! w = Some set ∧ f set = Ret set' ∧
                   m' !! w = Some set') ∧
       (w ∉ ws → m' !! w = m !! w).
Proof.
  induction ws as [|v ws IH]; intros m m' Hnd; simpl.
  - intros [= <-] w. split; [intros Hw; inversion Hw|done].
  - intros H. bind_inv H. apply withSet_Ret in Ha as (set & set1 & Hv & Hf & ->).
    apply NoDup_cons in Hnd as [Hv' Hnd].
    intros w. destruct (IH _ _ Hnd H w) as [Hin Hout].
    destruct (IH _ _ Hnd H v) as [_ Hvout].
    split.
    + intros Hw. apply elem_of_cons in Hw as [->|Hw].
      * exists set, set1. rewrite Hvout, lookup_insert_eq by done. done.
      * destruct (Hin Hw) as (s & s' & Hs & Hfs & Hs').
        rewrite lookup_insert_ne in Hs by (intros ->; done). eauto.
    + intros Hw. apply not_elem_of_cons in Hw as [Hne Hw].
      rewrite Hout, lookup_insert_ne by done. done.
Qed.

(** A loop whose body keeps the head chunk keeps every posting list. *)
Lemma forEachSet_firstChunk (f : PostSet.t → outcome PostSet.t)
    (ptrs : list PostSetPtr) :
  (∀ set set', f set = Ret set' →
     PostSet.firstChunk set' = PostSet.firstChunk set) →
  ∀ m m' : gmap string PostSet.t,
  PostIndex.forEachSet f m ptrs = Ret m' →
  ∀ w, PostSet.firstChunk <$> m' !! w = PostSet.firstChunk <$> m !! w.
Proof.
  intros Hf. induction ptrs as [|[v|] ptrs IH]; intros m m'; simpl.
  - by intros [= <-].
  - intros H w. bind_inv H.
    apply withSet_Ret in Ha as (set & set1 & Hv & Hfv & ->).
    rewrite (IH _ _ H w). rewrite lookup_insert. case_decide; [|done].
    subst v. rewrite Hv. simpl. f_equal. eauto.
  - discriminate.
Qed.

Lemma Lock_firstChunk (set set' : PostSet.t) :
  PostSet.Lock set = Ret set' → PostSet.firstChunk set' = PostSet.firstChunk set.
Proof. unfold PostSet.Lock. destruct (PostSet.SyncRoot set); by intros [= <-]. Qed.

Lemma Unlock_firstChunk (set set' : PostSet.t) :
  PostSet.Unlock set = Ret set' → PostSet.firstChunk set' = PostSet.firstChunk set.
Proof. unfold PostSet.Unlock. destruct (PostSet.SyncRoot set); by intros [= <-]. Qed.

(** The lock loop only gets through when no set occurs twice: a second
    [Lock] of a mutex the goroutine already holds never returns. *)
Lemma lock_all_NoDup (ws : list string) :
  ∀ m m' : gmap string PostSet.t,
  PostIndex.forEachSet PostSet.Lock m (map Some ws) = Ret m' →
  NoDup ws ∧
  ∀ w, w ∈ ws → ∃ set, m !! w = Some set ∧ PostSet.SyncRoot set = false.
Proof.
  induction ws as [|v ws IH]; intros m m'; simpl.
  - intros _. split; [constructor|]. intros w Hw. inversion Hw.
  - intros H. bind_inv H.
    apply withSet_Ret in Ha as (set & set1 & Hv & Hlock & ->).
    unfold PostSet.Lock in Hlock.
    destruct (PostSet.SyncRoot set) eqn:Hfree; [discriminate|].
    injection Hlock as <-.
    destruct (IH _ _ H) as [Hnd Hfree'].
    assert (v ∉ ws) as Hv'.
    { intros Hin. destruct (Hfree' _ Hin) as (s & Hs & Hs').
      rewrite lookup_insert_eq in Hs. injection Hs as <-. discriminate. }
    split; [by constructor|].
    intros w Hw. apply elem_of_cons in Hw as [->|Hw]; [eauto|].
    destruct (Hfree' _ Hw) as (s & Hs & Hs').
    rewrite lookup_insert_ne in Hs by (intros ->; done). eauto.
Qed.

(** On sets that exist the lock loop returns or blocks; it does not panic. *)
Lemma lock_all_outcome (ws : list string) :
  ∀ m : gmap string PostSet.t,
  (∀ w, w ∈ ws → is_Some (m !! w)) →
  PostIndex.forEachSet PostSet.Lock m (map Some ws) = Blocked ∨
  ∃ m', PostIndex.forEachSet PostSet.Lock m (map Some ws) = Ret m'.
Proof.
  induction ws as [|v ws IH]; intros m Hin; simpl; [by eauto|].
  destruct (Hin v) as [set Hv]; [by left|].
  unfold PostIndex.withSet. rewrite Hv. unfold PostSet.Lock.
  destruct (PostSet.SyncRoot set); simpl; [by left|].
  apply IH. intros w Hw. rewrite lookup_insert. case_decide; [done|].
  apply Hin. by right.
Qed.

(** ** Sorting the words *)

Lemma insertSorted_Permutation (w : string) (l : list string) :
  PostIndex.insertSorted w l ≡ₚ w :: l.
Proof.
  induction l as [|x l IH]; simpl; [done|].
  destruct (String.leb w x); [done|]. rewrite IH. apply Permutation_swap.
Qed.

Lemma sortStrings_Permutation (words : list string) :
  PostIndex.sortStrings words ≡ₚ words.
Proof.
  induction words as [|w words IH]; simpl; [done|].
  rewrite insertSorted_Permutation. by rewrite IH.
Qed.

Lemma insertSorted_Sorted (w : string) (l : list string) :
  Sorted (λ a b, String.leb a b = true) l →
  Sorted (λ a b, String.leb a b = true) (PostIndex.insertSorted w l).
Proof.
  induction l as [|x l IH]; simpl; intros Hl; [by repeat constructor|].
  destruct (String.leb w x) eqn:Hwx; [by constructor; [|constructor]|].
  apply Sorted_inv in Hl as [Hl Hx]. constructor; [by apply IH|].
  assert (String.leb x w = true) as Hxw
    by (destruct (String.leb_total w x) as [H|H]; congruence).
  destruct l as [|y l]; simpl; [by constructor|].
  destruct (String.leb w y); constructor; [done|].
  by apply HdRel_inv in Hx.
Qed.

(** The model of [sort.Strings] sorts: its result is in increasing order and
    is a rearrangement of the words, repeated words included. *)
Lemma sortStrings_Sorted (words : list string) :
  Sorted (λ a b, String.leb a b = true) (PostIndex.sortStrings words).
Proof.
  induction words as [|w words IH]; simpl; [constructor|].
  by apply insertSorted_Sorted.
Qed.

(** ** Ingestion *)

(** The steps of a call of [AddPost] that returns. *)
Lemma AddPostTraced_Ret (index index' : PostIndex.t) (id : Z)
    (words : list string) (localId : Z) :
  PostIndex.AddPostTraced index id words = Ret (localId, index') →
  let ws := PostIndex.sortStrings words in
  let counter := atomic_AddInt32 (PostIndex.nextLocalId index) 1 in
  ∃ index1 m2 m3 m4,
    PostIndex.findOrCreateSets index ws = (index1, map Some ws) ∧
    PostIndex.forEachSet PostSet.Lock (PostIndex.setsOf index1) (map Some ws)
      = Ret m2 ∧
    PostIndex.forEachSet (λ v, PostSet.AddPost v localId) m2 (map Some ws)
      = Ret m3 ∧
    PostIndex.forEachSet PostSet.Unlock m3 (rev (map Some ws)) = Ret m4 ∧
    localId = to_uint32 counter ∧
    index' = PostIndex.mk counter (Some m4)
               (Some (<[localId := id]>
                  (match PostIndex.idMap index with
                   | None => ∅
                   | Some ids => ids
                   end))).
Proof.
  intros H ws counter. unfold PostIndex.AddPostTraced in H.
  subst ws counter.
  destruct (PostIndex.findOrCreateSets index (PostIndex.sortStrings words))
    as [index1 ptrs] eqn:Hfind.
  pose proof (findOrCreateSets_spec _ _ _ _ Hfind) as (-> & Hn & Hids & _).
  bind_inv H. rename a into m2, Ha into Hlock.
  bind_inv H. rename a into m3, Ha into Hadd.
  bind_inv H. rename a into m4, Ha into Hunlock.
  injection H as <- <-. rewrite Hn in Hadd |- *. simpl. rewrite Hids.
  exists index1, m2, m3, m4. repeat split; done.
Qed.

(** What a returning call does to the counter and to the id map. *)
Lemma AddPostTraced_counter (index index' : PostIndex.t) (id : Z)
    (words : list string) (localId : Z) :
  PostIndex.AddPostTraced index id words = Ret (localId, index') →
  localId = to_uint32 (PostIndex.nextLocalId index + 1) ∧
  PostIndex.nextLocalId index' = wrap_int32 (PostIndex.nextLocalId index + 1) ∧
  translate index' localId = Some id.
Proof.
  intros H. apply AddPostTraced_Ret in H
    as (index1 & m2 & m3 & m4 & _ & _ & _ & _ & -> & ->).
  unfold atomic_AddInt32, translate. simpl.
  rewrite to_uint32_wrap_int32, lookup_insert_eq. done.
Qed.

Lemma to_uint32_wrap_add (a b : Z) : to_uint32 (wrap_int32 a + b) = to_uint32 (a + b).
Proof.
  unfold to_uint32, wrap_int32.
  replace ((a + 2 ^ 31) mod 2 ^ 32 - 2 ^ 31 + b)
    with ((a + 2 ^ 31) mod 2 ^ 32 + (b - 2 ^ 31)) by lia.
  rewrite Zplus_mod_idemp_l. f_equal. lia.
Qed.

Lemma run_app (calls1 calls2 : list (Z * list string)) :
  ∀ index,
  run index (calls1 ++ calls2) =
    '(ids1, index1) ← run index calls1;
    '(ids2, index2) ← run index1 calls2;
    Ret (ids1 ++ ids2, index2).
Proof.
  induction calls1 as [|[id words] calls1 IH]; intros index; simpl.
  - destruct (run index calls2) as [[ids2 index2]| | |]; done.
  - destruct (PostIndex.AddPostTraced index id words) as [[lid index1]| | |];
      simpl; try done.
    rewrite IH. destruct (run index1 calls1) as [[ids1 index2]| | |];
      simpl; try done.
    destruct (run index2 calls2) as [[ids2 index3]| | |]; done.
Qed.

(** The local ids of a run, by position: the counter modulo [2 ^ 32]. *)
Lemma run_localIds (calls : list (Z * list string)) :
  ∀ index localIds index',
  run index calls = Ret (localIds, index') →
  length localIds = length calls ∧
  ∀ i : nat, (i < length calls)%nat →
    localIds !! i = Some (to_uint32 (PostIndex.nextLocalId index + Z.of_nat i + 1)).
Proof.
  induction calls as [|[id words] calls IH]; intros index localIds index'; simpl.
  - intros [= <- <-]. split; [done|]. intros i Hi. lia.
  - intros H. bind_inv H. destruct a as [lid index1].
    bind_inv H. destruct a as [lids index2]. injection H as <- <-.
    apply AddPostTraced_counter in Ha as (-> & Hn & _).
    apply IH in Ha0 as [Hlen Hids]. split; [simpl; lia|].
    intros [|i] Hi; simpl.
    + do 2 f_equal. lia.
    + rewrite Hids by lia. rewrite Hn, <- Z.add_assoc, to_uint32_wrap_add.
      do 2 f_equal. lia.
Qed.

(** A call without words returns. *)
Lemma AddPostTraced_no_words (index : PostIndex.t) (id : Z) :
  ∃ localId index', PostIndex.AddPostTraced index id [] = Ret (localId, index') ∧
    PostIndex.setsOf index' = PostIndex.setsOf index ∧
    is_Some (PostIndex.sets index') ∧ is_Some (PostIndex.idMap index').
Proof. destruct index as [n [m|] ids]; do 2 eexists; (split; [reflexivity|]); eauto. Qed.

Lemma run_no_words (id : Z) (n : nat) :
  ∀ index, (1 ≤ n)%nat →
  ∃ localIds ids,
    run index (repeat (id, []) n)
      = Ret (localIds,
             PostIndex.mk (wrap_int32 (PostIndex.nextLocalId index + Z.of_nat n))
               (Some (PostIndex.setsOf index)) (Some ids)).
Proof.
  induction n as [|n IH]; intros index Hn; [lia|].
  destruct (AddPostTraced_no_words index id)
    as (lid & index1 & Hcall & Hsets & [m Hm] & [ids Hids]).
  pose proof (AddPostTraced_counter _ _ _ _ _ Hcall) as (_ & Hcounter & _).
  simpl. rewrite Hcall. simpl.
  destruct n as [|n].
  - simpl. do 2 eexists. do 2 f_equal.
    destruct index1 as [c1 s1 i1]. simpl in *. subst. unfold PostIndex.setsOf. simpl.
    do 2 f_equal. exact Hsets.
  - destruct (IH index1) as (lids & ids' & Hrun); [lia|].
    rewrite Hrun. simpl. do 2 eexists. do 3 f_equal; [|by rewrite Hsets].
    rewrite Hcounter, wrap_int32_add_l. f_equal. lia.
Qed.

(** *** Local ids *)

(** C8, as amended.  On a fresh index a run of fewer than [2 ^ 32] calls of
    [AddPost] draws the local ids 1, 2, 3, ... in call order: the first call
    draws 1, each later call one more than the call before it, and no id is
    drawn twice. *)
Theorem C8_local_ids_count_up (calls : list (Z * list string))
    (localIds : list Z) (index : PostIndex.t) :
  Z.of_nat (length calls) < 2 ^ 32 →
  run PostIndex.empty calls = Ret (localIds, index) →
  localIds = seqZ 1 (Z.of_nat (length calls)) ∧ NoDup localIds.
Proof.
  intros Hlen Hrun. apply run_localIds in Hrun as [Hn Hids].
  assert (localIds = seqZ 1 (Z.of_nat (length calls))) as ->;
    [|split; [done|apply NoDup_seqZ]].
  apply list_eq. intros i.
  destruct (decide (i < length calls)%nat) as [Hi|Hi].
  - rewrite Hids, lookup_seqZ_lt by lia. simpl. f_equal.
    unfold to_uint32. rewrite Z.mod_small; lia.
  - rewrite lookup_seqZ_ge by lia. apply lookup_ge_None. lia.
Qed.

(** C8 on a run of three calls, one of them without words. *)
Lemma C8_witness :
  ∃ localIds index,
    run PostIndex.empty [(100, ["alpha"; "beta"]); (7, []); (100, ["beta"])]
      = Ret (localIds, index) ∧
    localIds = seqZ 1 3 ∧ NoDup localIds.
Proof.
  assert (∃ localIds index,
    run PostIndex.empty [(100, ["alpha"; "beta"]); (7, []); (100, ["beta"])]
      = Ret (localIds, index)) as (localIds & index & Hrun)
    by (do 2 eexists; vm_compute; reflexivity).
  exists localIds, index. split; [exact Hrun|].
  assert (Z.of_nat 3 < 2 ^ 32) as Hlen by lia.
  exact (C8_local_ids_count_up
           [(100, ["alpha"; "beta"]); (7, []); (100, ["beta"])]
           localIds index Hlen Hrun).
Defined.

Lemma wrapCalls_Z : Z.of_nat wrapCalls = 2 ^ 32.
Proof. unfold wrapCalls. apply Z2Nat.id. lia. Qed.

(** C8 as stated fails on a run of [2 ^ 32 + 1] calls: the last call draws
    local id 1, which the first call drew, and the call before it draws 0,
    which is not one more than 4294967295. *)
Lemma C8_counterexample :
  ∃ localIds index,
    run PostIndex.empty (repeat (0, []) (S wrapCalls)) = Ret (localIds, index) ∧
    localIds !! 0%nat = Some 1 ∧
    localIds !! (wrapCalls - 1)%nat = Some 0 ∧
    localIds !! wrapCalls = Some 1 ∧
    ¬ NoDup localIds.
Proof.
  pose proof wrapCalls_Z as HZ.
  destruct (run_no_words 0 (S wrapCalls) PostIndex.empty) as (lids & ids & Hrun);
    [lia|].
  exists lids. eexists. split; [exact Hrun|].
  apply run_localIds in Hrun as [Hlen Hids]. rewrite repeat_length in Hids, Hlen.
  assert (lids !! 0%nat = Some 1) as H0.
  { rewrite Hids by lia. reflexivity. }
  assert (lids !! wrapCalls = Some 1) as H1.
  { rewrite Hids by lia. rewrite HZ. reflexivity. }
  split; [exact H0|]. split; [|split; [exact H1|]].
  - rewrite Hids by lia. rewrite Nat2Z.inj_sub, HZ by lia. reflexivity.
  - intros Hnd. pose proof (NoDup_lookup _ _ _ _ Hnd H0 H1) as Heq. lia.
Qed.

(** *** Duplicate terms *)

(** C5 fails on the code.  [AddPost] sorts the words and does not remove
    duplicates: a word given twice resolves twice to the same posting set,
    and the second [Lock] of its mutex never returns.  Whatever the index,
    a call whose word list repeats a word blocks before a local id is drawn
    or appended. *)
Theorem C5_duplicate_terms_block (index : PostIndex.t) (id : Z)
    (words : list string) :
  ¬ NoDup words → PostIndex.AddPost index id words = Blocked.
Proof.
  intros Hdup. unfold PostIndex.AddPost, PostIndex.AddPostTraced.
  destruct (PostIndex.findOrCreateSets index (PostIndex.sortStrings words))
    as [index1 ptrs] eqn:Hfind.
  apply findOrCreateSets_spec in Hfind as (-> & _ & _ & Hin & _).
  destruct (lock_all_outcome _ _ Hin) as [->|[m2 Hlock]]; [done|].
  exfalso. apply Hdup. apply lock_all_NoDup in Hlock as [Hnd _].
  by rewrite <- sortStrings_Permutation.
Qed.

(** C5 at the call [AddPost(1, [a, a])] on a fresh index. *)
Lemma C5_witness : PostIndex.AddPost PostIndex.empty 1 ["a"; "a"] = Blocked.
Proof.
  apply C5_duplicate_terms_block.
  intros Hnd. apply NoDup_cons in Hnd as [Hnotin _]. apply Hnotin. left.
Defined.

(** ** The ascending invariant *)

Lemma newestFirst_rev : ∀ c, newestFirst c = rev (postingList c).
Proof.
  fix IH 1. intros [ids n [older|]]; simpl.
  - rewrite rev_app_distr. f_equal. apply IH.
  - by rewrite app_nil_r.
Qed.

Lemma StronglySorted_rev {A : Type} (R : relation A) (l : list A) :
  StronglySorted R l → StronglySorted (flip R) (rev l).
Proof.
  induction 1 as [|x l Hl IH Hx]; simpl; [constructor|].
  apply StronglySorted_app_2; [|done|repeat constructor].
  intros x1 x2 Hx1 Hx2. apply list_elem_of_singleton in Hx2 as ->.
  rewrite Forall_forall in Hx. apply Hx. apply list_elem_of_In.
  apply list_elem_of_In in Hx1. by apply in_rev.
Qed.

Lemma chunkOk_mono (k k' : Z) (c : PostChunk) :
  k ≤ k' → chunkOk k c → chunkOk k' c.
Proof.
  intros Hk (Hwf & Hsorted & Hle). split; [done|]. split; [done|].
  eapply Forall_impl; [exact Hle|]. simpl. lia.
Qed.

Lemma chunkOk_empty (k : Z) : chunkOk k emptyChunk.
Proof. split; [apply wfChunk_empty|]. split; constructor. Qed.

Lemma AddPost_chunkOk (k id : Z) (set set' : PostSet.t) :
  chunkOk k (PostSet.firstChunk set) → k < id →
  PostSet.AddPost set id = Ret set' →
  chunkOk id (PostSet.firstChunk set').
Proof.
  intros (Hwf & Hsorted & Hle) Hk Hadd.
  destruct (PostSet_AddPost_spec set id Hwf) as (set1 & Hadd1 & Hwf1 & Hlist & _).
  rewrite Hadd in Hadd1. injection Hadd1 as <-.
  split; [done|]. rewrite Hlist. split.
  - apply StronglySorted_app_2; [|done|repeat constructor].
    intros x1 x2 Hx1 Hx2. apply list_elem_of_singleton in Hx2 as ->.
    rewrite Forall_forall in Hle. apply Hle in Hx1. lia.
  - apply Forall_app. split; [|repeat constructor; lia].
    eapply Forall_impl; [exact Hle|]. simpl. lia.
Qed.

Lemma setsOk_firstChunk (k : Z) (m m' : gmap string PostSet.t) :
  (∀ w, PostSet.firstChunk <$> m' !! w = PostSet.firstChunk <$> m !! w) →
  setsOk k m → setsOk k m'.
Proof.
  intros Heq Hok w set' Hw. specialize (Heq w). rewrite Hw in Heq.
  destruct (m !! w) as [set|] eqn:Hm; [|discriminate].
  injection Heq as ->. eauto.
Qed.

(** One call keeps the invariant and draws the next id. *)
Lemma AddPostTraced_setsOk (index index' : PostIndex.t) (id : Z)
    (words : list string) (localId k : Z) :
  setsOk k (PostIndex.setsOf index) →
  PostIndex.nextLocalId index = wrap_int32 k →
  0 ≤ k → k + 1 < 2 ^ 32 →
  PostIndex.AddPostTraced index id words = Ret (localId, index') →
  localId = k + 1 ∧
  PostIndex.nextLocalId index' = wrap_int32 (k + 1) ∧
  setsOk (k + 1) (PostIndex.setsOf index').
Proof.
  intros Hok Hn Hk0 Hk1 Hcall.
  pose proof (AddPostTraced_counter _ _ _ _ _ Hcall) as (Hid & Hn' & _).
  rewrite Hn in Hid, Hn'. rewrite to_uint32_wrap_add in Hid.
  rewrite wrap_int32_add_l in Hn'.
  assert (localId = k + 1) as Hlid.
  { rewrite Hid. unfold to_uint32. apply Z.mod_small. lia. }
  split; [done|]. split; [done|].
  apply AddPostTraced_Ret in Hcall
    as (index1 & m2 & m3 & m4 & Hfind & Hlock & Hadd & Hunlock & _ & ->).
  apply findOrCreateSets_spec in Hfind as (_ & _ & _ & _ & _ & Hnew).
  assert (setsOk k (PostIndex.setsOf index1)) as Hok1.
  { intros w set Hw. apply Hnew in Hw as [Hw| ->]; [eauto|apply chunkOk_empty]. }
  assert (setsOk k m2) as Hok2.
  { eapply setsOk_firstChunk; [|exact Hok1].
    eapply forEachSet_firstChunk; [apply Lock_firstChunk|exact Hlock]. }
  apply lock_all_NoDup in Hlock as [Hnd _].
  assert (setsOk (k + 1) m3) as Hok3.
  { intros w set' Hw.
    destruct (forEachSet_NoDup _ _ _ _ Hnd Hadd w) as [Hin Hout].
    destruct (decide (w ∈ PostIndex.sortStrings words)) as [Hw'|Hw'].
    - destruct (Hin Hw') as (set & set1 & Hset & Hadd1 & Hset1).
      rewrite Hw in Hset1. injection Hset1 as <-.
      rewrite <- Hlid. eapply AddPost_chunkOk; [by eapply Hok2| |exact Hadd1]. lia.
    - rewrite (Hout Hw') in Hw. apply (chunkOk_mono k); [lia|]. by eapply Hok2. }
  unfold PostIndex.setsOf. simpl.
  eapply setsOk_firstChunk; [|exact Hok3].
  eapply forEachSet_firstChunk; [apply Unlock_firstChunk|exact Hunlock].
Qed.

Lemma run_setsOk (calls : list (Z * list string)) :
  ∀ index k localIds index',
  setsOk k (PostIndex.setsOf index) →
  PostIndex.nextLocalId index = wrap_int32 k →
  0 ≤ k → k + Z.of_nat (length calls) < 2 ^ 32 →
  run index calls = Ret (localIds, index') →
  setsOk (k + Z.of_nat (length calls)) (PostIndex.setsOf index').
Proof.
  induction calls as [|[id words] calls IH];
    intros index k localIds index' Hok Hn Hk0 Hk1; simpl.
  - intros [= <- <-]. by rewrite Z.add_0_r.
  - intros H. bind_inv H. destruct a as [lid index1].
    bind_inv H. destruct a as [lids index2]. injection H as <- <-.
    simpl length in Hk1.
    eapply AddPostTraced_setsOk in Ha as (_ & Hn1 & Hok1); [|done|done|lia|lia].
    eapply IH in Ha0; [|exact Hok1|exact Hn1|lia|lia].
    replace (k + Z.of_nat (S (length calls)))
      with (k + 1 + Z.of_nat (length calls)) by lia. done.
Qed.

(** C2, as amended.  After every run of fewer than [2 ^ 32] calls of
    [AddPost] on a fresh index, whatever the word lists, the posting list of
    every term in the set table is strictly ascending in local id, and read
    from the head chunk backwards it is strictly descending. *)
Theorem C2_posting_lists_ascend (calls : list (Z * list string))
    (localIds : list Z) (index : PostIndex.t) (word : string)
    (set : PostSet.t) :
  Z.of_nat (length calls) < 2 ^ 32 →
  run PostIndex.empty calls = Ret (localIds, index) →
  PostIndex.setsOf index !! word = Some set →
  StronglySorted Z.lt (postingList (PostSet.FirstChunk set)) ∧
  StronglySorted (flip Z.lt) (newestFirst (PostSet.FirstChunk set)).
Proof.
  intros Hlen Hrun Hword.
  eapply (run_setsOk calls PostIndex.empty 0) in Hrun; [| |done|lia|lia].
  - destruct (Hrun _ _ Hword) as (_ & Hsorted & _).
    split; [done|]. rewrite newestFirst_rev. by apply StronglySorted_rev.
  - intros w s Hw. unfold PostIndex.setsOf in Hw. simpl in Hw.
    by rewrite lookup_empty in Hw.
Qed.

(** C2 on a run of two calls that share a term. *)
Lemma C2_witness :
  ∃ localIds index set,
    run PostIndex.empty [(100, ["alpha"; "beta"]); (200, ["beta"])]
      = Ret (localIds, index) ∧
    PostIndex.setsOf index !! "beta" = Some set ∧
    postingList (PostSet.FirstChunk set) = [1; 2] ∧
    StronglySorted Z.lt (postingList (PostSet.FirstChunk set)) ∧
    StronglySorted (flip Z.lt) (newestFirst (PostSet.FirstChunk set)).
Proof.
  assert (∃ localIds index set,
    run PostIndex.empty [(100, ["alpha"; "beta"]); (200, ["beta"])]
      = Ret (localIds, index) ∧
    PostIndex.setsOf index !! "beta" = Some set ∧
    postingList (PostSet.FirstChunk set) = [1; 2])
    as (localIds & index & set & Hrun & Hset & Hlist).
  { do 3 eexists. split; [vm_compute; reflexivity|].
    split; vm_compute; reflexivity. }
  exists localIds, index, set. do 3 (split; [assumption|]).
  assert (Z.of_nat 2 < 2 ^ 32) as Hlen by lia.
  exact (C2_posting_lists_ascend
           [(100, ["alpha"; "beta"]); (200, ["beta"])]
           localIds index "beta" set Hlen Hrun Hset).
Defined.

(** Two calls for the term [a] when the counter stands at [-2], two short of
    wrapping: they draw 4294967295 and then 0. *)
Lemma last_two_before_wrap (ids : gmap Z Z) :
  ∃ index set,
    run (PostIndex.mk (-2) (Some ∅) (Some ids)) [(0, ["a"]); (0, ["a"])]
      = Ret ([4294967295; 0], index) ∧
    PostIndex.setsOf index !! "a" = Some set ∧
    postingList (PostSet.FirstChunk set) = [4294967295; 0].
Proof.
  do 2 eexists. split; [vm_compute; reflexivity|].
  split; vm_compute; reflexivity.
Qed.

(** C2 as stated fails on a run of [2 ^ 32] calls: after [2 ^ 32 - 2] calls
    without words, two calls for the term [a] leave it the posting list
    4294967295, 0, which does not ascend. *)
Lemma C2_counterexample :
  ∃ localIds index set,
    run PostIndex.empty
        (repeat (0, []) (wrapCalls - 2) ++ [(0, ["a"]); (0, ["a"])])
      = Ret (localIds, index) ∧
    PostIndex.setsOf index !! "a" = Some set ∧
    postingList (PostSet.FirstChunk set) = [4294967295; 0] ∧
    ¬ StronglySorted Z.lt (postingList (PostSet.FirstChunk set)).
Proof.
  pose proof wrapCalls_Z as HZ.
  destruct (run_no_words 0 (wrapCalls - 2) PostIndex.empty)
    as (lids & ids & Hrun); [lia|].
  rewrite Nat2Z.inj_sub, HZ in Hrun by lia.
  change (wrap_int32 (PostIndex.nextLocalId PostIndex.empty + (2 ^ 32 - Z.of_nat 2)))
    with (-2) in Hrun.
  change (PostIndex.setsOf PostIndex.empty) with (∅ : gmap string PostSet.t) in Hrun.
  destruct (last_two_before_wrap ids) as (index & set & Hlast & Hset & Hlist).
  exists (lids ++ [4294967295; 0]), index, set.
  split; [|split; [exact Hset|split; [exact Hlist|]]].
  - rewrite run_app, Hrun. cbn [mbind outcome_bind]. rewrite Hlast. reflexivity.
  - rewrite Hlist. intros Hsorted. apply StronglySorted_inv in Hsorted as [_ Hall].
    apply Forall_inv in Hall. lia.
Qed.

(** ** Calls that return *)

(** A loop over pairwise different sets returns when its body returns on
    each of them. *)
Lemma forEachSet_returns (f : PostSet.t → outcome PostSet.t) (ws : list string) :
  ∀ m : gmap string PostSet.t,
  NoDup ws →
  (∀ w, w ∈ ws → ∃ set set', m !! w = Some set ∧ f set = Ret set') →
  ∃ m', PostIndex.forEachSet f m (map Some ws) = Ret m'.
Proof.
  induction ws as [|v ws IH]; intros m Hnd Hf; simpl; [by eauto|].
  apply NoDup_cons in Hnd as [Hv Hnd].
  destruct (Hf v) as (set & set' & Hset & Hret); [by left|].
  unfold PostIndex.withSet. rewrite Hset, Hret. simpl.
  apply IH; [done|]. intros w Hw.
  rewrite lookup_insert_ne by (intros ->; done). apply Hf. by right.
Qed.

(** On an index at rest a call whose words are pairwise different returns,
    and leaves the index at rest. *)
Lemma AddPostTraced_returns (index : PostIndex.t) (id : Z) (words : list string) :
  atRest (PostIndex.setsOf index) → NoDup words →
  ∃ localId index',
    PostIndex.AddPostTraced index id words = Ret (localId, index') ∧
    atRest (PostIndex.setsOf index').
Proof.
  intros Hrest Hnd. unfold PostIndex.AddPostTraced.
  rewrite <- sortStrings_Permutation in Hnd.
  destruct (PostIndex.findOrCreateSets index (PostIndex.sortStrings words))
    as [index1 ptrs] eqn:Hfind.
  apply findOrCreateSets_spec in Hfind as (-> & _ & _ & Hin & _ & Hnew).
  set (ws := PostIndex.sortStrings words) in *.
  assert (atRest (PostIndex.setsOf index1)) as Hrest1.
  { intros w set Hw. apply Hnew in Hw as [Hw| ->]; [eauto|].
    split; [done|apply wfChunk_empty]. }
  destruct (forEachSet_returns PostSet.Lock ws (PostIndex.setsOf index1))
    as [m2 Hlock]; [done| |].
  { intros w Hw. destruct (Hin w Hw) as [set Hset].
    destruct (Hrest1 _ _ Hset) as [Hfree _].
    exists set. eexists. split; [done|]. unfold PostSet.Lock. by rewrite Hfree. }
  rewrite Hlock. simpl.
  pose proof (forEachSet_NoDup _ _ _ _ Hnd Hlock) as Hm2.
  set (localId := to_uint32 (atomic_AddInt32 (PostIndex.nextLocalId index1) 1)).
  destruct (forEachSet_returns (λ v, PostSet.AddPost v localId) ws m2)
    as [m3 Hadd]; [done| |].
  { intros w Hw. destruct (Hm2 w) as [Hw2 _].
    destruct (Hw2 Hw) as (set & set2 & Hset & Hlocked & Hset2).
    destruct (Hrest1 _ _ Hset) as [_ Hwf].
    rewrite <- (Lock_firstChunk _ _ Hlocked) in Hwf.
    destruct (PostSet_AddPost_spec set2 localId Hwf) as (set3 & Hret & _).
    eauto. }
  rewrite Hadd. simpl.
  pose proof (forEachSet_NoDup _ _ _ _ Hnd Hadd) as Hm3.
  assert (∀ w, w ∈ ws → ∃ set, m3 !! w = Some set ∧
            PostSet.SyncRoot set = true ∧ wfChunk (PostSet.firstChunk set))
    as Hheld.
  { intros w Hw. destruct (Hm2 w) as [Hw2 _].
    destruct (Hw2 Hw) as (set & set2 & Hset & Hlocked & Hset2).
    destruct (Hm3 w) as [Hw3 _].
    destruct (Hw3 Hw) as (set2' & set3 & Hset2' & Hret & Hset3).
    rewrite Hset2 in Hset2'. injection Hset2' as <-.
    destruct (Hrest1 _ _ Hset) as [Hfree Hwf].
    rewrite <- (Lock_firstChunk _ _ Hlocked) in Hwf.
    destruct (PostSet_AddPost_spec set2 localId Hwf)
      as (set3' & Hret' & Hwf3 & _ & Hsync).
    rewrite Hret in Hret'. injection Hret' as <-.
    exists set3. split; [done|]. split; [|done].
    rewrite Hsync. unfold PostSet.Lock in Hlocked. rewrite Hfree in Hlocked.
    by injection Hlocked as <-. }
  rewrite <- map_rev.
  assert (NoDup (rev ws)) as Hnd' by (by rewrite <- Permutation_rev).
  destruct (forEachSet_returns PostSet.Unlock (rev ws) m3) as [m4 Hunlock];
    [done| |].
  { intros w Hw. rewrite <- Permutation_rev in Hw.
    destruct (Hheld w Hw) as (set & Hset & Hsync & _).
    exists set. eexists. split; [done|]. unfold PostSet.Unlock. by rewrite Hsync. }
  rewrite Hunlock. simpl. do 2 eexists. split; [reflexivity|].
  unfold PostIndex.setsOf. simpl.
  pose proof (forEachSet_NoDup _ _ _ _ Hnd' Hunlock) as Hm4.
  intros w set4 Hw. destruct (decide (w ∈ ws)) as [Hin'|Hout].
  - destruct (Hm4 w) as [Hw4 _].
    assert (w ∈ rev ws) as Hrev by (by rewrite <- Permutation_rev).
    destruct (Hw4 Hrev) as (set3 & set4' & Hset3 & Hfreed & Hset4).
    rewrite Hw in Hset4. injection Hset4 as <-.
    destruct (Hheld w Hin') as (set3' & Hset3' & Hsync & Hwf).
    rewrite Hset3 in Hset3'. injection Hset3' as <-.
    rewrite (Unlock_firstChunk _ _ Hfreed). split; [|done].
    unfold PostSet.Unlock in Hfreed. rewrite Hsync in Hfreed.
    by injection Hfreed as <-.
  - destruct (Hm4 w) as [_ Hw4]. rewrite Hw4 in Hw
      by (by rewrite <- Permutation_rev).
    destruct (Hm3 w) as [_ Hw3]. rewrite (Hw3 Hout) in Hw.
    destruct (Hm2 w) as [_ Hw2]. rewrite (Hw2 Hout) in Hw. eauto.
Qed.

(** A run on a fresh index returns when no call repeats a word. *)
Lemma run_returns (calls : list (Z * list string)) :
  Forall (λ call, NoDup call.2) calls →
  ∃ localIds index, run PostIndex.empty calls = Ret (localIds, index).
Proof.
  assert (∀ index, atRest (PostIndex.setsOf index) →
            Forall (λ call, NoDup call.2) calls →
            ∃ localIds index', run index calls = Ret (localIds, index')) as Hgen.
  { induction calls as [|[id words] calls IH]; intros index Hrest Hall; simpl.
    - eauto.
    - apply Forall_cons in Hall as [Hnd Hall]. simpl in Hnd.
      destruct (AddPostTraced_returns index id words Hrest Hnd)
        as (lid & index1 & -> & Hrest1). simpl.
      destruct (IH index1 Hrest1 Hall) as (lids & index2 & ->). simpl. eauto. }
  apply Hgen. intros w set Hw. unfold PostIndex.setsOf in Hw. simpl in Hw.
  by rewrite lookup_empty in Hw.
Qed.

(** ** Query evaluation *)

(** The frame's buffer is the same before and after [MoveNext], whatever the
    operator does with the copy it is given. *)
Lemma MoveNext_keeps_buffer
    (nextChunk : QueryOperator → list Z → outcome chunkResult)
    (q q' : QueryNode) (more : bool) :
  QueryNode.MoveNext nextChunk q = Ret (q', more) →
  QueryNode.buffer q' = QueryNode.buffer q.
Proof.
  unfold QueryNode.MoveNext.
  destruct (negb (QueryNode.Done q)); [|by intros [= <- <-]].
  destruct (QueryNode.length q <=? QueryNode.cursor q + 1); [|by intros [= <- <-]].
  intros H. bind_inv H. destruct a as [[op1 copy] n]. by injection H as <- <-.
Qed.

(** A frame made by [QueryNode{op: o}] therefore reads 0 for ever. *)
Lemma fresh_frame_reads_zero
    (nextChunk : QueryOperator → list Z → outcome chunkResult)
    (q q' : QueryNode) (more : bool) (v : Z) :
  QueryNode.buffer q = zeroBuffer →
  QueryNode.MoveNext nextChunk q = Ret (q', more) →
  QueryNode.Current q' = Ret v → v = 0.
Proof.
  intros Hzero Hmove. apply MoveNext_keeps_buffer in Hmove.
  unfold QueryNode.Current, array_get. rewrite Hmove, Hzero.
  destruct (0 <=? QueryNode.cursor q'); [|discriminate].
  destruct (zeroBuffer !! Z.to_nat (QueryNode.cursor q')) as [x|] eqn:Hx;
    [|discriminate].
  intros [= <-]. unfold zeroBuffer in Hx.
  apply list_elem_of_lookup_2, list_elem_of_In, repeat_spec in Hx. done.
Qed.

(** Every literal is parsed into a [TerminalOperator] whose [ChunkCursor] is
    0, whatever the count of the head chunk. *)
Lemma parseToken_terminal (index : PostIndex.t) (query : string) (i : Z)
    (stack : opStack) (p : parsed) (word : string) :
  parseToken index query i stack = Ret (inr p) → body p = Some word →
  last (operands p)
    = Some (Terminal (mkTerminal (PostIndex.findSetChunkForQuery index word) 0)).
Proof.
  unfold parseToken. intros H Hbody. bind_inv H.
  destruct (Ascii.eqb a "&").
  { destruct (OpStack.Length stack <? 2); [discriminate|].
    bind_inv H. destruct a0. bind_inv H. destruct a0.
    injection H as <-. discriminate. }
  destruct (Ascii.eqb a "|").
  { destruct (OpStack.Length stack <? 2); [discriminate|].
    bind_inv H. destruct a0. bind_inv H. destruct a0.
    injection H as <-. discriminate. }
  destruct (Ascii.eqb a dquote); [|discriminate].
  bind_inv H. destruct (len query <=? a0); [discriminate|].
  bind_inv H. injection H as <-. simpl in *. injection Hbody as ->.
  unfold OpStack.Push. apply last_snoc.
Qed.

(** On a posting list of one chunk the reverse scan does not end with a
    count of 0: once the cursor is below 0 the operator steps to the nil
    [Next] and reads its [Length]. *)
Lemma terminal_loop_panics (c : PostChunk) :
  Next c = None →
  ∀ (n bound : nat) (i : Z) (buffer : list Z),
    Z.of_nat n ≤ Z.of_nat (length (IDs c)) → Z.of_nat n < 2 ^ 31 →
    0 ≤ i → i + Z.of_nat n < queryBufferSize → (n < bound)%nat →
    Z.of_nat (length buffer) = queryBufferSize →
    TerminalOperator.loop bound (mkTerminal (Some c) (Z.of_nat n - 1)) buffer i
      = Panic NilDereference.
Proof.
  intros Hnext. induction n as [|n IH]; intros bound i buffer Hn Hn' Hi Hi' Hb Hlen;
    (destruct bound as [|bound]; [lia|]); simpl;
    (destruct (Z.ltb_spec i queryBufferSize); [|lia]).
  - rewrite Hnext. reflexivity.
  - destruct (Z.ltb_spec (Z.of_nat (S n) - 1) 0); [lia|]. simpl.
    unfold array_get. destruct (Z.leb_spec 0 (Z.of_nat (S n) - 1)); [|lia].
    destruct (lookup_lt_is_Some_2 (IDs c) (Z.to_nat (Z.of_nat (S n) - 1)))
      as [v Hv]; [lia|].
    rewrite Hv. simpl. unfold array_set.
    destruct (Z.leb_spec 0 i); [|lia].
    destruct (Z.ltb_spec i (Z.of_nat (length buffer))); [|lia]. simpl.
    rewrite wrap_int32_small by lia.
    replace (Z.of_nat (S n) - 1 - 1) with (Z.of_nat n - 1) by lia.
    apply IH; try lia. rewrite length_insert. done.
Qed.

Lemma terminal_single_chunk_panics (c : PostChunk) (cursor : Z) :
  Next c = None →
  -1 ≤ cursor < Z.of_nat (length (IDs c)) → cursor < queryBufferSize - 1 →
  TerminalOperator.NextChunk (mkTerminal (Some c) cursor) zeroBuffer
    = Panic NilDereference.
Proof.
  intros Hnext Hcursor Hsmall. unfold TerminalOperator.NextChunk.
  replace cursor with (Z.of_nat (Z.to_nat (cursor + 1)) - 1) by lia.
  apply terminal_loop_panics; try done; unfold queryBufferSize in *; lia.
Qed.

(** *** The operator contract *)

(** C3 fails on the code.  After 4097 posts for the term [a] the parsed
    terminal fills 128 ids, from 4097 down, into the buffer it was handed and
    returns 128; that buffer is a copy, the frame's own buffer is never
    written, and [Current] on the frame, at cursor 0 of 128, reads 0 and not
    4097. *)
Theorem C3_frame_never_sees_the_chunk :
  ('(_, index) ← run PostIndex.empty (repeat (0, ["a"]) 4097);
   firstChunkSeen index)
  = Ret (Some (128, [4097; 4096; 4095], true, 128, 0, 0)).
Proof. vm_compute. reflexivity. Qed.

(** C4 fails on the code.  After two posts for the term [a] the head chunk
    has count 2, and the parser builds the terminal with chunk cursor 0, not
    1.  Its first [NextChunk] does not return: having read slot 0 it steps to
    the nil [Next].  Started at cursor 1, as the claim has it, the scan ends
    in the same panic and not in a count of 0. *)
Theorem C4_terminal_scan_defects :
  ∃ index head,
    run PostIndex.empty [(1, ["a"]); (2, ["a"])] = Ret ([1; 2], index) ∧
    PostIndex.findSetChunkForQuery index "a" = Some head ∧
    Length head = 2 ∧ Next head = None ∧
    ParseQuery index (quoted "a")
      = Ret (inr (QueryNode.new (Terminal (mkTerminal (Some head) 0)))) ∧
    TerminalOperator.NextChunk (mkTerminal (Some head) 0) zeroBuffer
      = Panic NilDereference ∧
    TerminalOperator.NextChunk (mkTerminal (Some head) 1) zeroBuffer
      = Panic NilDereference.
Proof.
  do 2 eexists.
  split; [vm_compute; reflexivity|].
  split; [vm_compute; reflexivity|].
  repeat split; vm_compute; reflexivity.
Qed.

(** *** Query results *)

(** C1 fails on the code.  After [AddPost(g, [alpha, beta])] on a fresh
    index the post has local id 1, and the query for [alpha] does not return
    a sequence: the first pull on the root frame panics in the terminal, and
    so does the driver. *)
Theorem C1_single_term_query_panics (g : Z) (fuel : nat) :
  ∃ index root,
    PostIndex.AddPost PostIndex.empty g ["alpha"; "beta"] = Ret index ∧
    translate index 1 = Some g ∧
    ParseQuery index (quoted "alpha") = Ret (inr root) ∧
    MoveNext (S fuel) root = Panic NilDereference ∧
    QueryPosts (S fuel) index (quoted "alpha") 10 = Panic NilDereference.
Proof.
  do 2 eexists.
  split; [vm_compute; reflexivity|].
  repeat split; vm_compute; reflexivity.
Qed.

(** C9 fails on the code.  With one post for [x] and none for [y], the
    intersection written [x y &] returns the empty sequence, and the one
    written [y x &] panics: the parser makes the operand popped first the
    left child, the left child is pulled first, and the terminal for the
    known term panics when pulled. *)
Theorem C9_intersection_order_matters (fuel : nat) :
  ∃ index,
    PostIndex.AddPost PostIndex.empty 1 ["x"] = Ret index ∧
    QueryPosts (S (S fuel)) index (quoted "x" ++ quoted "y" ++ "&")%string 10
      = Ret (inr []) ∧
    QueryPosts (S (S fuel)) index (quoted "y" ++ quoted "x" ++ "&")%string 10
      = Panic NilDereference.
Proof.
  eexists.
  split; [vm_compute; reflexivity|].
  split; vm_compute; reflexivity.
Qed.
